(** * genji: the bolt storage engine and the SELECT statement

    A shallow embedding of [sql/query/select.go] (package [query]) and of
    the bolt engine's [Store] and [iterator] (package [boltengine]),
    together with the properties the specification states about them.

    Layout: byte strings and errors; a model of the part of the bbolt API
    the engine calls; the engine itself; the document and stream
    interfaces the query package consumes; the SELECT statement; then the
    theorems. *)

From Stdlib Require Import List ZArith NArith Bool Lia String Ascii.
From Stdlib Require Import Strings.Byte.
Import ListNotations.

Set Implicit Arguments.

(* ================================================================= *)
(** ** Byte strings and [bytes.Compare] *)

Definition bytes := list byte.

(** A Go byte slice that may be nil: [None] is the nil slice, [Some []]
    the empty slice that is not nil. The code tests the values it gets back
    from bolt against nil, so values are slices. Keys are only measured,
    compared and copied, where a nil slice and an empty one agree, so keys
    are byte strings. *)
Definition slice : Type := option bytes.

Definition slice_bytes (v : slice) : bytes :=
  match v with Some b => b | None => [] end.

(** [bytes.Compare]: lexicographic comparison of two byte slices, bytes
    taken as unsigned numbers. A nil slice compares as the empty one. *)
Fixpoint Compare (a b : bytes) : comparison :=
  match a, b with
  | [], [] => Eq
  | [], _ :: _ => Lt
  | _ :: _, [] => Gt
  | x :: a', y :: b' =>
      match N.compare (Byte.to_N x) (Byte.to_N y) with
      | Eq => Compare a' b'
      | Lt => Lt
      | Gt => Gt
      end
  end.

Definition bytes_eqb (a b : bytes) : bool :=
  match Compare a b with Eq => true | _ => false end.

Definition bytes_lt (a b : bytes) : Prop := Compare a b = Lt.
Definition bytes_le (a b : bytes) : Prop := Compare a b <> Gt.

(* ================================================================= *)
(** ** Errors *)

(** The sentinel errors the two packages compare against or return, the
    errors of the libraries they call, and messages built with
    [errors.New] or [fmt.Errorf]. [Panic] stands for a run-time panic (a
    nil dereference or a failed type assertion): it aborts like an error
    but is no Go [error] value. *)
Inductive error : Type :=
| Canceled                 (* context.Canceled *)
| DeadlineExceeded         (* context.DeadlineExceeded *)
| ErrTransactionReadOnly   (* engine.ErrTransactionReadOnly *)
| ErrKeyNotFound           (* engine.ErrKeyNotFound *)
| ErrTxNotWritable         (* bolt.ErrTxNotWritable *)
| ErrKeyRequired           (* bolt.ErrKeyRequired *)
| ErrKeyTooLarge           (* bolt.ErrKeyTooLarge *)
| ErrValueTooLarge         (* bolt.ErrValueTooLarge *)
| ErrBucketNotFound        (* bolt.ErrBucketNotFound *)
| ErrBucketExists          (* bolt.ErrBucketExists *)
| ErrBucketNameRequired    (* bolt.ErrBucketNameRequired *)
| ErrFieldNotFound         (* document.ErrFieldNotFound *)
| ErrorString (msg : string)
| Panic (msg : string).

Definition error_eq_dec (x y : error) : {x = y} + {x <> y}.
Proof. decide equality; apply string_dec. Defined.

(** A Go result [(A, error)] whose value is the zero value on error. *)
Inductive result (A : Type) : Type :=
| Ok (a : A)
| Fail (e : error).
Arguments Fail {A} e.

(** [context.Context], as far as the engine looks at it: [Done] is ready
    exactly when [Err] is not nil. *)
Record Context : Type := mkContext { ctx_Err : option error }.

Definition Background : Context := mkContext None.
Definition cancelled (c : Context) : bool :=
  match ctx_Err c with Some _ => true | None => false end.

(* ================================================================= *)
(** ** The bbolt API the engine calls *)

Module bolt.

(** A bucket holds its key/value pairs in key order and a sequence
    counter (a uint64). Within the transaction a value is held as the slice
    the caller put, a nil one included. *)
Record Bucket : Type := mkBucket {
  entries : list (bytes * slice);
  sequence : N
}.

Definition emptyBucket : Bucket := mkBucket [] 0.

(** A transaction owns its buckets. The engine keeps a pointer to one of
    them, so buckets live in a heap addressed by [bucket_id], and the
    root directory maps names to addresses. *)
Definition bucket_id := nat.

Record Tx : Type := mkTx {
  tx_writable : bool;
  tx_heap : bucket_id -> Bucket;
  tx_next : bucket_id;
  tx_root : list (bytes * bucket_id)
}.

Definition deref (t : Tx) (b : bucket_id) : Bucket := tx_heap t b.

Definition store (t : Tx) (b : bucket_id) (x : Bucket) : Tx :=
  mkTx (tx_writable t)
       (fun i => if Nat.eqb i b then x else tx_heap t i)
       (tx_next t) (tx_root t).

Definition MaxKeySize : Z := 32768.
Definition MaxValueSize : Z := 2 ^ 31 - 2.

Definition len (b : bytes) : Z := Z.of_nat (List.length b).

(** Key lookup, insertion in key order and removal on the entry list. *)
Definition lookup (k : bytes) (es : list (bytes * slice)) : option slice :=
  option_map snd (find (fun e => bytes_eqb (fst e) k) es).

Fixpoint insert (k : bytes) (v : slice) (es : list (bytes * slice))
  : list (bytes * slice) :=
  match es with
  | [] => [(k, v)]
  | (k', v') :: es' =>
      match Compare k k' with
      | Lt => (k, v) :: es
      | Eq => (k, v) :: es'
      | Gt => (k', v') :: insert k v es'
      end
  end.

Definition remove (k : bytes) (es : list (bytes * slice))
  : list (bytes * slice) :=
  filter (fun e => negb (bytes_eqb (fst e) k)) es.

(** [Bucket.Writable]. *)
Definition Writable (t : Tx) (b : bucket_id) : bool := tx_writable t.

(** [Bucket.Get]: the value held for the key, nil when the key is
    absent. *)
Definition Get (t : Tx) (b : bucket_id) (k : bytes) : slice :=
  match lookup k (entries (deref t b)) with
  | Some v => v
  | None => None
  end.

(** [Bucket.Put]. *)
Definition Put (t : Tx) (b : bucket_id) (k : bytes) (v : slice)
  : Tx * option error :=
  if negb (tx_writable t) then (t, Some ErrTxNotWritable)
  else if (len k =? 0)%Z then (t, Some ErrKeyRequired)
  else if (len k >? MaxKeySize)%Z then (t, Some ErrKeyTooLarge)
  else if (len (slice_bytes v) >? MaxValueSize)%Z
  then (t, Some ErrValueTooLarge)
  else
    let bk := deref t b in
    (store t b (mkBucket (insert k v (entries bk)) (sequence bk)), None).

(** [Bucket.Delete]: removing an absent key is not an error. *)
Definition Delete (t : Tx) (b : bucket_id) (k : bytes) : Tx * option error :=
  if negb (tx_writable t) then (t, Some ErrTxNotWritable)
  else
    let bk := deref t b in
    (store t b (mkBucket (remove k (entries bk)) (sequence bk)), None).

(** [Bucket.NextSequence]: increments the uint64 counter. *)
Definition NextSequence (t : Tx) (b : bucket_id) : Tx * result N :=
  if negb (tx_writable t) then (t, Fail ErrTxNotWritable)
  else
    let bk := deref t b in
    let n := ((sequence bk + 1) mod 2 ^ 64)%N in
    (store t b (mkBucket (entries bk) n), Ok n).

Definition root_lookup (name : bytes) (r : list (bytes * bucket_id))
  : option bucket_id :=
  option_map snd (find (fun e => bytes_eqb (fst e) name) r).

(** [Tx.DeleteBucket]: the name leaves the directory and the bucket is
    dropped with its nodes, so the cell a pointer to it still addresses
    holds no entry afterwards. *)
Definition DeleteBucket (t : Tx) (name : bytes) : Tx * option error :=
  if negb (tx_writable t) then (t, Some ErrTxNotWritable)
  else
    match root_lookup name (tx_root t) with
    | None => (t, Some ErrBucketNotFound)
    | Some b =>
        (mkTx (tx_writable t)
              (fun i => if Nat.eqb i b then emptyBucket else tx_heap t i)
              (tx_next t)
              (filter (fun e => negb (bytes_eqb (fst e) name)) (tx_root t)),
         None)
    end.

(** [Tx.CreateBucket]: the new bucket is empty, at a fresh address. *)
Definition CreateBucket (t : Tx) (name : bytes) : Tx * result bucket_id :=
  if negb (tx_writable t) then (t, Fail ErrTxNotWritable)
  else if (len name =? 0)%Z then (t, Fail ErrBucketNameRequired)
  else
    match root_lookup name (tx_root t) with
    | Some _ => (t, Fail ErrBucketExists)
    | None =>
        let b := tx_next t in
        (mkTx (tx_writable t)
              (fun i => if Nat.eqb i b then emptyBucket else tx_heap t i)
              (S b) ((name, b) :: tx_root t),
         Ok b)
    end.

(** *** Cursors *)

(** A cursor points into the entries of its bucket: [At i] is the i-th
    entry, or the position after the last one when [i] is the number of
    entries; [Unset] is a cursor that ran off the front. The pair a cursor
    operation returns is [None] where bolt returns a nil key. *)
Inductive position : Type := Unset | At (i : nat).

Record Cursor : Type := mkCursor {
  c_bucket : bucket_id;
  c_pos : position
}.

Definition item := option (bytes * slice).

(** [Bucket.Cursor]. *)
Definition NewCursor (b : bucket_id) : Cursor := mkCursor b Unset.

(** Index of the first entry whose key is not below [seek]; the number
    of entries when there is none. *)
Fixpoint first_ge (seek : bytes) (es : list (bytes * slice)) : nat :=
  match es with
  | [] => 0
  | (k, _) :: es' =>
      match Compare k seek with
      | Lt => S (first_ge seek es')
      | _ => 0
      end
  end.

(** [Cursor.Seek]: moves to the first key greater than or equal to
    [seek]; a nil key when no key follows. *)
Definition Seek (t : Tx) (c : Cursor) (seek : bytes) : Cursor * item :=
  let es := entries (deref t (c_bucket c)) in
  let i := first_ge seek es in
  (mkCursor (c_bucket c) (At i), nth_error es i).

(** [Cursor.Last]. *)
Definition Last (t : Tx) (c : Cursor) : Cursor * item :=
  let es := entries (deref t (c_bucket c)) in
  match List.length es with
  | 0 => (mkCursor (c_bucket c) Unset, None)
  | S i => (mkCursor (c_bucket c) (At i), nth_error es i)
  end.

(** [Cursor.Prev]. *)
Definition Prev (t : Tx) (c : Cursor) : Cursor * item :=
  let es := entries (deref t (c_bucket c)) in
  match c_pos c with
  | Unset => (c, None)
  | At 0 => (mkCursor (c_bucket c) Unset, None)
  | At (S i) => (mkCursor (c_bucket c) (At i), nth_error es i)
  end.

(** [Cursor.Next]. *)
Definition Next (t : Tx) (c : Cursor) : Cursor * item :=
  let es := entries (deref t (c_bucket c)) in
  match c_pos c with
  | Unset => (c, None)
  | At i => (mkCursor (c_bucket c) (At (S i)), nth_error es (S i))
  end.

End bolt.

(* ================================================================= *)
(** ** Package boltengine *)

Module boltengine.

(** [Store]: the bucket pointer, the bucket's name and the context. The
    bolt transaction [tx] the struct points to is the state every
    operation below takes and returns. *)
Record Store : Type := mkStore {
  bucket : bolt.bucket_id;
  name : bytes;
  ctx : Context
}.

(** [Store.Put]. *)
Definition Put (s : Store) (k : bytes) (v : slice) (t : bolt.Tx)
  : bolt.Tx * option error :=
  match ctx_Err (ctx s) with
  | Some e => (t, Some e)
  | None =>
      if negb (bolt.Writable t (bucket s)) then (t, Some ErrTransactionReadOnly)
      else bolt.Put t (bucket s) k v
  end.

(** [Store.Get]. *)
Definition Get (s : Store) (k : bytes) (t : bolt.Tx) : result bytes :=
  match ctx_Err (ctx s) with
  | Some e => Fail e
  | None =>
      match bolt.Get t (bucket s) k with
      | None => Fail ErrKeyNotFound
      | Some v => Ok v
      end
  end.

(** [Store.Delete]. *)
Definition Delete (s : Store) (k : bytes) (t : bolt.Tx)
  : bolt.Tx * option error :=
  match ctx_Err (ctx s) with
  | Some e => (t, Some e)
  | None =>
      if negb (bolt.Writable t (bucket s)) then (t, Some ErrTransactionReadOnly)
      else
        match bolt.Get t (bucket s) k with
        | None => (t, Some ErrKeyNotFound)
        | Some _ => bolt.Delete t (bucket s) k
        end
  end.

(** [Store.Truncate]: drops the bucket and creates it again. The
    [bucket] field of the store is not reassigned. *)
Definition Truncate (s : Store) (t : bolt.Tx) : bolt.Tx * option error :=
  match ctx_Err (ctx s) with
  | Some e => (t, Some e)
  | None =>
      if negb (bolt.Writable t (bucket s)) then (t, Some ErrTransactionReadOnly)
      else
        match bolt.DeleteBucket t (name s) with
        | (t1, Some e) => (t1, Some e)
        | (t1, None) =>
            match bolt.CreateBucket t1 (name s) with
            | (t2, Fail e) => (t2, Some e)
            | (t2, Ok _) => (t2, None)
            end
        end
  end.

(** [Store.NextSequence]. *)
Definition NextSequence (s : Store) (t : bolt.Tx) : bolt.Tx * result N :=
  match ctx_Err (ctx s) with
  | Some e => (t, Fail e)
  | None =>
      if negb (bolt.Writable t (bucket s)) then (t, Fail ErrTransactionReadOnly)
      else bolt.NextSequence t (bucket s)
  end.

(** [engine.IteratorOptions]. *)
Record IteratorOptions : Type := mkOptions { Reverse : bool }.

(** [iterator]; [item] is [None] where [item.k] is nil. *)
Record iterator : Type := mkIterator {
  c : bolt.Cursor;
  reverse : bool;
  item : bolt.item;
  err : option error;
  ictx : Context
}.

(** [Store.Iterator]. *)
Definition Iterator (s : Store) (opts : IteratorOptions) : iterator :=
  mkIterator (bolt.NewCursor (bucket s)) (Reverse opts) None None (ctx s).

(** The key of an item, nil when there is none. *)
Definition item_key (i : bolt.item) : bytes :=
  match i with Some (k, _) => k | None => [] end.

(** The loop [for bytes.Compare(it.item.k, pivot) > 0 { ... c.Prev() }];
    [None] when [fuel] iterations did not end it. *)
Fixpoint prev_while_greater (fuel : nat) (t : bolt.Tx) (pivot : bytes)
  (cur : bolt.Cursor) (i : bolt.item) : option (bolt.Cursor * bolt.item) :=
  match Compare (item_key i) pivot with
  | Gt =>
      match fuel with
      | 0 => None
      | S fuel' =>
          let (cur', i') := bolt.Prev t cur in
          prev_while_greater fuel' t pivot cur' i'
      end
  | _ => Some (cur, i)
  end.

(** Iterations granted to the loop of [Seek]: one more than the bucket
    has entries. *)
Definition seek_fuel (t : bolt.Tx) (cur : bolt.Cursor) : nat :=
  S (List.length (bolt.entries (bolt.deref t (bolt.c_bucket cur)))).

(** [iterator.Seek]. *)
Definition Seek (it : iterator) (pivot : bytes) (t : bolt.Tx)
  : option iterator :=
  match ctx_Err (ictx it) with
  | Some e => Some (mkIterator (c it) (reverse it) (item it) (Some e) (ictx it))
  | None =>
      if negb (reverse it) then
        let (cur, i) := bolt.Seek t (c it) pivot in
        Some (mkIterator cur (reverse it) i (err it) (ictx it))
      else if Nat.eqb (List.length pivot) 0 then
        let (cur, i) := bolt.Last t (c it) in
        Some (mkIterator cur (reverse it) i (err it) (ictx it))
      else
        let (cur, i) := bolt.Seek t (c it) pivot in
        match i with
        | Some _ =>
            match prev_while_greater (seek_fuel t cur) t pivot cur i with
            | Some (cur', i') =>
                Some (mkIterator cur' (reverse it) i' (err it) (ictx it))
            | None => None
            end
        | None => Some (mkIterator cur (reverse it) i (err it) (ictx it))
        end
  end.

(** [iterator.Valid]. *)
Definition Valid (it : iterator) : bool :=
  match item it, err it with
  | Some _, None => true
  | _, _ => false
  end.

(** [iterator.Next]. *)
Definition Next (it : iterator) (t : bolt.Tx) : iterator :=
  let (cur, i) :=
    if reverse it then bolt.Prev t (c it) else bolt.Next t (c it) in
  mkIterator cur (reverse it) i (err it) (ictx it).

(** [iterator.Err]. *)
Definition Err (it : iterator) : option error := err it.

(** [iterator.Item]. *)
Definition Item (it : iterator) : bolt.item := item it.

End boltengine.

(* ================================================================= *)
(** ** Package query: the SELECT statement *)

Module query.

Section Select.

(** *** What the statement consumes from the other packages

    The value and document layer ([document], [encoding]), the schema
    layer ([database]), the token kinds of the scanner and the query
    optimizer are interfaces here: every definition and theorem of the
    section holds for each implementation of them. *)

(** [document.Value], its [Type] tag and the conversions [exec] calls. *)
Variable Value : Type.
Variable ValueType : Type.
Variable Type_of : Value -> ValueType.
Variable IsNumber : ValueType -> bool.
Variable IntValue : ValueType.
Variable Int64Value : ValueType.
Variable ConvertTo : Value -> ValueType -> result Value.
Variable ConvertToInt : Value -> result Z.
(** The rendering of a type tag by the verb [%q] of [fmt.Errorf]. *)
Variable TypeQ : ValueType -> string.
(** [encoding.DecodeValue]. *)
Variable DecodeValue : ValueType -> bytes -> result Value.

(** The callback [fn func(field string, value document.Value) error]: it
    acts on a state of the caller's choice and may fail. *)
Definition emit (S : Type) : Type := string -> Value -> S -> S * option error.

(** The interface [document.Document]; [Key] is the key of a document
    that also implements [document.Keyer]. *)
Record Document : Type := mkDocument {
  GetByField : string -> result Value;
  Iterate : forall S : Type, emit S -> S -> S * option error;
  Key : option bytes
}.

(** [document.ValuePath] with its methods [GetValue] and [String]. *)
Definition ValuePath : Type := list string.
Variable Path_GetValue : ValuePath -> option Document -> result Value.
Variable Path_String : ValuePath -> string.

(** [database.TableConfig], reduced to the path of the primary key. *)
Record TableConfig : Type := mkTableConfig { PrimaryKey_Path : ValuePath }.

Variable Transaction : Type.   (* database.Transaction *)
Variable NamedValue : Type.    (* driver.NamedValue *)
Variable FieldSelector : Type.
Variable Token : Type.         (* scanner.Token *)
Variable ASC DESC : Token.
Variable Token_eq_dec : forall a b : Token, {a = b} + {a <> b}.

(** [EvalStack]; a pointer or interface field that may be nil is an
    option. *)
Record EvalStack : Type := mkEvalStack {
  Tx : option Transaction;
  Params : list NamedValue;
  Doc : option Document;
  Cfg : option TableConfig
}.

(** The interface [Expr]: [Eval] returns a value and an error, and
    [ResultFieldExpr.Iterate] reads the value also when the error is set. *)
Definition Expr : Type := EvalStack -> Value * option error.

(** Modelled from the spec: the [Stream] of package [document], whose
    source is not part of this development. A stream is a single-pass
    sequence of documents, which may abort with an error after them.
    [Offset n] skips the first [n] documents, [Limit n] stops production
    after [n] documents, [Map] applies a transform to each document and
    aborts the stream at the first transform error. *)
Record Stream : Type := mkStream {
  items : list Document;
  failure : option error
}.

Definition Offset (s : Stream) (n : Z) : Stream :=
  mkStream (skipn (Z.to_nat n) (items s)) (failure s).

Definition Limit (s : Stream) (n : Z) : Stream :=
  if Nat.leb (Z.to_nat n) (List.length (items s))
  then mkStream (firstn (Z.to_nat n) (items s)) None
  else s.

Fixpoint map_until_error (f : Document -> result Document)
  (l : list Document) (tail : option error) : list Document * option error :=
  match l with
  | [] => ([], tail)
  | d :: l' =>
      match f d with
      | Fail e => ([], Some e)
      | Ok d' =>
          let (ds, e) := map_until_error f l' tail in (d' :: ds, e)
      end
  end.

Definition Map (s : Stream) (f : Document -> result Document) : Stream :=
  let (ds, e) := map_until_error f (items s) (failure s) in mkStream ds e.

(** *** Result fields *)

(** The three implementations of the interface [ResultField]. *)
Inductive ResultField : Type :=
| ResultFieldExpr (e : Expr) (ExprName : string)
| Wildcard
| KeyFunc.

(** [Name]. *)
Definition Name (rf : ResultField) : string :=
  match rf with
  | ResultFieldExpr _ ExprName => ExprName
  | Wildcard => "*"
  | KeyFunc => "key()"
  end.

(** [ResultFieldExpr.Iterate]. *)
Definition ResultFieldExpr_Iterate (e : Expr) (ExprName : string)
  (stack : EvalStack) (S : Type) (fn : emit S) (st : S) : S * option error :=
  let (v, err) := e stack in
  match err with
  | Some er =>
      if error_eq_dec er ErrFieldNotFound then fn ExprName v st
      else (st, Some er)
  | None => fn ExprName v st
  end.

(** [Wildcard.Iterate]. *)
Definition Wildcard_Iterate (stack : EvalStack) (S : Type) (fn : emit S)
  (st : S) : S * option error :=
  match Doc stack with
  | Some d => Iterate d fn st
  | None => (st, Some (Panic "nil pointer dereference"))
  end.

(** [KeyFunc.Iterate]. *)
Definition KeyFunc_Iterate (stack : EvalStack) (S : Type) (fn : emit S)
  (st : S) : S * option error :=
  match Cfg stack with
  | None => (st, Some (Panic "nil pointer dereference"))
  | Some cfg =>
      if negb (Nat.eqb (List.length (PrimaryKey_Path cfg)) 0) then
        match Path_GetValue (PrimaryKey_Path cfg) (Doc stack) with
        | Fail e => (st, Some e)
        | Ok v => fn (Path_String (PrimaryKey_Path cfg)) v st
        end
      else
        match Doc stack with
        | None => (st, Some (Panic "interface conversion"))
        | Some d =>
            match Key d with
            | None => (st, Some (Panic "interface conversion"))
            | Some k =>
                match DecodeValue Int64Value k with
                | Fail e => (st, Some e)
                | Ok v => fn (Name KeyFunc) v st
                end
            end
        end
  end.

(** The method [Iterate] of the interface [ResultField]. *)
Definition ResultField_Iterate (rf : ResultField) (stack : EvalStack)
  (S : Type) (fn : emit S) (st : S) : S * option error :=
  match rf with
  | ResultFieldExpr e n => ResultFieldExpr_Iterate e n stack fn st
  | Wildcard => Wildcard_Iterate stack fn st
  | KeyFunc => KeyFunc_Iterate stack fn st
  end.

(** *** documentMask *)

Record documentMask : Type := mkMask {
  cfg : option TableConfig;
  r : Document;
  resultFields : list ResultField
}.

(** The loop of [documentMask.GetByField]. *)
Fixpoint GetByField_loop (raw : Document) (name : string)
  (rfs : list ResultField) : result Value :=
  match rfs with
  | [] => Fail ErrFieldNotFound
  | rf :: rfs' =>
      if String.eqb (Name rf) name || String.eqb (Name rf) "*"
      then GetByField raw name
      else GetByField_loop raw name rfs'
  end.

(** [documentMask.GetByField]. *)
Definition mask_GetByField (m : documentMask) (name : string) : result Value :=
  GetByField_loop (r m) name (resultFields m).

(** The loop of [documentMask.Iterate]. *)
Fixpoint Iterate_loop (stack : EvalStack) (S : Type) (fn : emit S)
  (rfs : list ResultField) (st : S) : S * option error :=
  match rfs with
  | [] => (st, None)
  | rf :: rfs' =>
      match ResultField_Iterate rf stack fn st with
      | (st', Some e) => (st', Some e)
      | (st', None) => Iterate_loop stack fn rfs' st'
      end
  end.

(** [documentMask.Iterate]. *)
Definition mask_Iterate (m : documentMask) (S : Type) (fn : emit S) (st : S)
  : S * option error :=
  let stack := mkEvalStack None [] (Some (r m)) (cfg m) in
  Iterate_loop stack fn (resultFields m) st.

(** [var _ document.Document = documentMask{}]: a mask is a document; it
    has no method [Key]. *)
Definition maskDocument (m : documentMask) : Document :=
  mkDocument (mask_GetByField m) (fun S => @mask_Iterate m S) None.

(** *** The statement *)

Record SelectStmt : Type := mkSelect {
  TableName : string;
  WhereExpr : option Expr;
  OrderBy : FieldSelector;
  OrderByDirection : Token;
  OffsetExpr : option Expr;
  LimitExpr : option Expr;
  Selectors : list ResultField
}.

(** [IsReadOnly]. *)
Definition IsReadOnly (stmt : SelectStmt) : bool := true.

(** The optimizer's struct, with the fields [exec] reads and writes. *)
Record queryOptimizer : Type := mkOptimizer {
  qo_tx : Transaction;
  qo_tableName : string;
  qo_cfg : option TableConfig;
  qo_whereExpr : option Expr;
  qo_args : list NamedValue;
  qo_orderBy : FieldSelector;
  qo_orderByDirection : Token;
  qo_limit : Z;
  qo_offset : Z
}.

Variable newQueryOptimizer : Transaction -> string -> result queryOptimizer.
Variable optimizeQuery : queryOptimizer -> result Stream.

(** The calls [exec] makes to the optimizer, in order. *)
Inductive call : Type :=
| call_newQueryOptimizer (tableName : string)
| call_optimizeQuery (qo : queryOptimizer).

(** [Result]. *)
Record Result : Type := mkResult { ResultStream : Stream }.

(** The block [exec] runs for OFFSET and again for LIMIT; the two copies
    differ in the word of the message only. Without an expression the
    count stays at -1. *)
Definition not_a_number (what : string) (t : ValueType) : error :=
  ErrorString (what ++ " expression must evaluate to a number, got " ++ TypeQ t).

Definition evalCount (what : string) (e : option Expr) (stack : EvalStack)
  : result Z :=
  match e with
  | None => Ok (-1)%Z
  | Some f =>
      let (v, err) := f stack in
      match err with
      | Some er => Fail er
      | None =>
          if negb (IsNumber (Type_of v)) then Fail (not_a_number what (Type_of v))
          else
            match ConvertTo v IntValue with
            | Fail er => Fail er
            | Ok vi => ConvertToInt vi
            end
      end
  end.

(** The transform [exec] passes to [Map]. *)
Definition mask_of (qo : queryOptimizer) (stmt : SelectStmt) (d : Document)
  : result Document :=
  Ok (maskDocument (mkMask (qo_cfg qo) d (Selectors stmt))).

(** [SelectStmt.exec]: the calls made to the optimizer and the result. *)
Definition exec (stmt : SelectStmt) (tx : Transaction) (args : list NamedValue)
  : list call * result Result :=
  if String.eqb (TableName stmt) EmptyString
  then ([], Fail (ErrorString "missing table selector"))
  else
    let direction :=
      if Token_eq_dec (OrderByDirection stmt) DESC then DESC else ASC in
    let stack := mkEvalStack (Some tx) args None None in
    match evalCount "offset" (OffsetExpr stmt) stack with
    | Fail e => ([], Fail e)
    | Ok offset =>
        match evalCount "limit" (LimitExpr stmt) stack with
        | Fail e => ([], Fail e)
        | Ok limit =>
            match newQueryOptimizer tx (TableName stmt) with
            | Fail e => ([call_newQueryOptimizer (TableName stmt)], Fail e)
            | Ok qo0 =>
                let qo :=
                  mkOptimizer (qo_tx qo0) (qo_tableName qo0) (qo_cfg qo0)
                    (WhereExpr stmt) args (OrderBy stmt) direction
                    limit offset in
                let calls :=
                  [call_newQueryOptimizer (TableName stmt);
                   call_optimizeQuery qo] in
                match optimizeQuery qo with
                | Fail e => (calls, Fail e)
                | Ok st =>
                    let st1 := if (offset >? 0)%Z then Offset st offset else st in
                    let st2 := if (limit >=? 0)%Z then Limit st1 limit else st1 in
                    let st3 := Map st2 (mask_of qo stmt) in
                    (calls, Ok (mkResult st3))
                end
            end
        end
    end.

(** [Run]. *)
Definition Run (stmt : SelectStmt) (tx : Transaction) (args : list NamedValue)
  : list call * result Result :=
  exec stmt tx args.

End Select.

End query.

(* ================================================================= *)
(** ** Vocabulary of the statements *)

Module spec.

Import bolt boltengine.

(** The entries of the bucket a store points to. *)
Definition contents (s : Store) (t : Tx) : list (bytes * slice) :=
  entries (deref t (bucket s)).

(** Bucket invariant: keys strictly increase along the entries. *)
Definition ltb (a b : bytes) : bool :=
  match Compare a b with Lt => true | _ => false end.

Fixpoint sorted (es : list (bytes * slice)) : bool :=
  match es with
  | [] => true
  | e :: es' => forallb (fun e' => ltb (fst e) (fst e')) es' && sorted es'
  end.

(** [e] is the entry with the greatest key not above [pivot]. *)
Definition greatest_le (es : list (bytes * slice)) (pivot : bytes)
  (e : bytes * slice) : Prop :=
  In e es /\ bytes_le (fst e) pivot /\
  forall e', In e' es -> bytes_le (fst e') pivot -> bytes_le (fst e') (fst e).

(** The last entry of a bucket, if any. *)
Definition last_entry (es : list (bytes * slice)) : option (bytes * slice) :=
  nth_error es (pred (List.length es)).

(** A reverse iterator on a store. *)
Definition reverse_iterator (s : Store) : iterator :=
  Iterator s (mkOptions true).

(** Operations a client runs on one store, and their effect on the
    transaction. *)
Inductive op : Type :=
| OpPut (k : bytes) (v : slice)
| OpDelete (k : bytes)
| OpGet (k : bytes)
| OpNextSequence.

Definition step (s : Store) (o : op) (t : Tx) : Tx :=
  match o with
  | OpPut k v => fst (Put s k v t)
  | OpDelete k => fst (Delete s k t)
  | OpGet _ => t
  | OpNextSequence => fst (NextSequence s t)
  end.

Definition run (s : Store) (ops : list op) (t : Tx) : Tx :=
  fold_left (fun t' o => step s o t') ops t.

(** *** A store with the keys 1, 3, 5 and 7 *)

Definition sample_entries : list (bytes * slice) :=
  [([x01], Some [x61]); ([x03], Some [x62]); ([x05], Some [x63]);
   ([x07], Some [x64])].

Definition sample_tx (w : bool) : Tx :=
  mkTx w (fun _ => mkBucket sample_entries 0) 1 [([x74], 0)].

Definition sample_store (c : Context) : Store := mkStore 0 [x74] c.

End spec.

(* ================================================================= *)
(** ** A small instance of the interfaces of package query *)

Module samples.

Import query.

(** The callback that appends every pair it is given to the output. *)
Definition collect (Value : Type) : emit Value (list (string * Value)) :=
  fun f v out => (out ++ [(f, v)], None).

(** The documents at the positions [n, n + k) of a sequence. *)
Definition positions (A : Type) (l : list A) (n k : nat) : list A :=
  firstn k (skipn n l).

(** Values: null, integers and texts. *)
Inductive SType : Type := TNull | TInt | TText.
Inductive SValue : Type := VNull | VInt (z : Z) | VText (s : string).

Definition sType_of (v : SValue) : SType :=
  match v with VNull => TNull | VInt _ => TInt | VText _ => TText end.

Definition sIsNumber (t : SType) : bool :=
  match t with TInt => true | _ => false end.

Definition sConvertTo (v : SValue) (t : SType) : result SValue :=
  match v, t with
  | VInt _, TInt => Ok v
  | _, _ => Fail (ErrorString "cannot convert")
  end.

Definition sConvertToInt (v : SValue) : result Z :=
  match v with
  | VInt z => Ok z
  | _ => Fail (ErrorString "not an integer")
  end.

Definition sTypeQ (t : SType) : string :=
  match t with TNull => "null" | TInt => "integer" | TText => "text" end.

(** Keys decode as big-endian numbers. *)
Definition sDecodeValue (t : SType) (b : bytes) : result SValue :=
  Ok (VInt (Z.of_N (fold_left (fun acc x => acc * 256 + Byte.to_N x) b 0))%N).

(** A stored document: its fields in order and its key. *)
Fixpoint feed (S : Type) (fn : emit SValue S) (fs : list (string * SValue))
  (st : S) : S * option error :=
  match fs with
  | [] => (st, None)
  | (f, v) :: fs' =>
      match fn f v st with
      | (st', Some e) => (st', Some e)
      | (st', None) => feed fn fs' st'
      end
  end.

Definition field (fs : list (string * SValue)) (name : string) : result SValue :=
  match find (fun p => String.eqb (fst p) name) fs with
  | Some (_, v) => Ok v
  | None => Fail ErrFieldNotFound
  end.

Definition rawDocument (fs : list (string * SValue)) (key : option bytes)
  : Document SValue :=
  mkDocument (field fs) (fun S fn st => feed fn fs st) key.

Definition sPath_GetValue (p : ValuePath) (d : option (Document SValue))
  : result SValue :=
  match p, d with
  | [f], Some d' => GetByField d' f
  | _, _ => Fail ErrFieldNotFound
  end.

Definition sPath_String (p : ValuePath) : string := String.concat "." p.

(** Transactions and parameters carry nothing; the direction tokens are
    the two booleans. *)
Definition sStack (d : option (Document SValue)) (c : option TableConfig)
  : EvalStack SValue unit unit :=
  mkEvalStack None [] d c.

Definition literal (v : SValue) : Expr SValue unit unit :=
  fun _ => (v, None).

Definition missing_field : Expr SValue unit unit :=
  fun _ => (VNull, Some ErrFieldNotFound).

Definition sKeyFunc_Iterate :=
  @KeyFunc_Iterate SValue SType TInt sDecodeValue sPath_GetValue sPath_String
                   unit unit.

Definition sMask_Iterate :=
  @mask_Iterate SValue SType TInt sDecodeValue sPath_GetValue sPath_String
                unit unit.

(** A table of five documents with keys 1 to 5, no declared primary key. *)
Definition person (n : Z) (k : byte) : Document SValue :=
  rawDocument [("age"%string, VInt n)] (Some [k]).

Definition people : list (Document SValue) :=
  [person 1 x01; person 2 x02; person 3 x03; person 4 x04; person 5 x05].

Definition sNewQueryOptimizer (tx : unit) (table : string)
  : result (queryOptimizer SValue unit unit string bool) :=
  Ok (mkOptimizer tx table (Some (mkTableConfig [])) None [] EmptyString false 0 0).

Definition sOptimizeQuery (qo : queryOptimizer SValue unit unit string bool)
  : result (Stream SValue) :=
  Ok (mkStream people None).

Definition sExec :=
  @exec SValue SType sType_of sIsNumber TInt TInt sConvertTo sConvertToInt
        sTypeQ sDecodeValue sPath_GetValue sPath_String unit unit string bool
        false true Bool.bool_dec sNewQueryOptimizer sOptimizeQuery.

Definition select_people (offset limit : option (Expr SValue unit unit))
  : SelectStmt SValue unit unit string bool :=
  mkSelect "people" None EmptyString false offset limit [Wildcard _ _ _].

End samples.

(* ================================================================= *)
(** ** Callers of the store and of the iterator *)

Module usage.

Import bolt boltengine spec.

(** The loop [for it.Seek(pivot); it.Valid(); it.Next() { ... it.Item() }]
    by which the callers of the engine read a store, with the items it
    visits in order; [fuel] bounds the number of iterations. *)
Fixpoint drain (fuel : nat) (it : iterator) (t : Tx) : list (bytes * slice) :=
  match fuel with
  | 0 => []
  | S fuel' =>
      if Valid it then
        match Item it with
        | Some e => e :: drain fuel' (Next it t) t
        | None => []
        end
      else []
  end.

(** A scan of a store from a pivot, in either direction: [None] when Seek
    does not return. The loop is granted one more iteration than the
    bucket has entries. *)
Definition scan (s : Store) (backwards : bool) (pivot : bytes) (t : Tx)
  : option (list (bytes * slice)) :=
  match Seek (Iterator s (mkOptions backwards)) pivot t with
  | Some it => Some (drain (S (List.length (contents s t))) it t)
  | None => None
  end.

(** [n] calls of [Next]. *)
Fixpoint Next_times (n : nat) (it : iterator) (t : Tx) : iterator :=
  match n with
  | 0 => it
  | S n' => Next_times n' (Next it t) t
  end.

(** The number of NextSequence operations of a run. *)
Fixpoint count_NextSequence (ops : list op) : N :=
  match ops with
  | [] => 0
  | OpNextSequence :: ops' => (1 + count_NextSequence ops')%N
  | _ :: ops' => count_NextSequence ops'
  end.

(** The test [k >= pivot] and the test [k <= pivot] on keys. *)
Definition geb (k pivot : bytes) : bool :=
  match Compare k pivot with Lt => false | _ => true end.
Definition leb (k pivot : bytes) : bool :=
  match Compare k pivot with Gt => false | _ => true end.

End usage.

(* ================================================================= *)
(** ** Facts about [bytes.Compare] *)

Lemma to_N_inj (x y : byte) : Byte.to_N x = Byte.to_N y -> x = y.
Proof.
  intros H.
  assert (E : Byte.of_N (Byte.to_N x) = Byte.of_N (Byte.to_N y)) by now rewrite H.
  rewrite !Byte.of_to_N in E. congruence.
Qed.

Lemma Compare_refl (a : bytes) : Compare a a = Eq.
Proof.
  induction a as [|x a IH]; simpl; [reflexivity|].
  now rewrite N.compare_refl.
Qed.

Lemma Compare_eq (a b : bytes) : Compare a b = Eq -> a = b.
Proof.
  revert b; induction a as [|x a IH]; intros [|y b]; simpl; try discriminate.
  - reflexivity.
  - destruct (N.compare (Byte.to_N x) (Byte.to_N y)) eqn:E; try discriminate.
    intros H. apply N.compare_eq in E. apply to_N_inj in E.
    f_equal; auto.
Qed.

Lemma Compare_antisym (a b : bytes) : Compare b a = CompOpp (Compare a b).
Proof.
  revert b; induction a as [|x a IH]; intros [|y b]; simpl; try reflexivity.
  rewrite (N.compare_antisym (Byte.to_N x) (Byte.to_N y)).
  destruct (N.compare (Byte.to_N x) (Byte.to_N y)); simpl; auto.
Qed.

Lemma Compare_lt_trans (a b c : bytes) :
  Compare a b = Lt -> Compare b c = Lt -> Compare a c = Lt.
Proof.
  revert b c; induction a as [|x a IH]; intros [|y b] [|z c]; simpl;
    try discriminate; try reflexivity.
  destruct (N.compare (Byte.to_N x) (Byte.to_N y)) eqn:E1; try discriminate;
    destruct (N.compare (Byte.to_N y) (Byte.to_N z)) eqn:E2; try discriminate;
    intros H1 H2.
  - apply N.compare_eq in E1, E2. rewrite E1, E2, N.compare_refl. eauto.
  - apply N.compare_eq in E1. now rewrite E1, E2.
  - apply N.compare_eq in E2. now rewrite <- E2, E1.
  - rewrite N.compare_lt_iff in E1, E2.
    assert (L : (Byte.to_N x < Byte.to_N z)%N) by lia.
    rewrite <- N.compare_lt_iff in L. now rewrite L.
Qed.

Lemma Compare_nil_not_gt (b : bytes) : Compare [] b <> Gt.
Proof. destruct b; discriminate. Qed.

Lemma Compare_gt_lt (a b : bytes) : Compare a b = Gt -> Compare b a = Lt.
Proof. intros H. now rewrite Compare_antisym, H. Qed.

Lemma Compare_lt_gt (a b : bytes) : Compare a b = Lt -> Compare b a = Gt.
Proof. intros H. now rewrite Compare_antisym, H. Qed.

Lemma bytes_eqb_refl (a : bytes) : bytes_eqb a a = true.
Proof. unfold bytes_eqb. now rewrite Compare_refl. Qed.

Lemma bytes_eqb_eq (a b : bytes) : bytes_eqb a b = true <-> a = b.
Proof.
  unfold bytes_eqb. split.
  - destruct (Compare a b) eqn:E; try discriminate. intros _. now apply Compare_eq.
  - intros ->. now rewrite Compare_refl.
Qed.

Lemma bytes_eqb_neq (a b : bytes) : a <> b -> bytes_eqb a b = false.
Proof.
  intros H. destruct (bytes_eqb a b) eqn:E; [|reflexivity].
  apply bytes_eqb_eq in E. contradiction.
Qed.

(* ================================================================= *)
(** ** Facts about buckets *)

Module bolt_facts.

Import bolt spec.

Lemma deref_store (t : Tx) (b : bucket_id) (x : Bucket) :
  deref (store t b x) b = x.
Proof. unfold deref, store; simpl. now rewrite Nat.eqb_refl. Qed.

Lemma lookup_insert (k : bytes) (v : slice) (es : list (bytes * slice)) :
  lookup k (insert k v es) = Some v.
Proof.
  unfold lookup.
  induction es as [|[k' v'] es IH]; simpl.
  - now rewrite bytes_eqb_refl.
  - destruct (Compare k k') eqn:E; simpl.
    + now rewrite bytes_eqb_refl.
    + now rewrite bytes_eqb_refl.
    + unfold bytes_eqb at 1. now rewrite (Compare_gt_lt _ _ E).
Qed.

Lemma lookup_insert_other (k k' : bytes) (v : slice) (es : list (bytes * slice)) :
  k' <> k -> lookup k es = None -> lookup k (insert k' v es) = None.
Proof.
  unfold lookup. intros Hne.
  induction es as [|[k0 v0] es IH]; simpl.
  - now rewrite (bytes_eqb_neq Hne).
  - destruct (bytes_eqb k0 k) eqn:E0; [discriminate|].
    intros H. destruct (Compare k' k0) eqn:E; simpl.
    + now rewrite (bytes_eqb_neq Hne).
    + now rewrite (bytes_eqb_neq Hne), E0.
    + rewrite E0. auto.
Qed.

Lemma lookup_remove (k : bytes) (es : list (bytes * slice)) :
  lookup k (remove k es) = None.
Proof.
  unfold lookup, remove.
  induction es as [|[k' v'] es IH]; simpl; [reflexivity|].
  destruct (bytes_eqb k' k) eqn:E; simpl; [assumption|].
  now rewrite E.
Qed.

Lemma lookup_remove_other (k k' : bytes) (es : list (bytes * slice)) :
  lookup k es = None -> lookup k (remove k' es) = None.
Proof.
  unfold lookup, remove.
  induction es as [|[k0 v0] es IH]; simpl; [reflexivity|].
  destruct (bytes_eqb k0 k) eqn:E0; [discriminate|].
  intros H. destruct (bytes_eqb k0 k'); simpl; auto.
  rewrite E0. auto.
Qed.

(** The invariant of a bucket is kept by insertion and removal. *)

Lemma forallb_insert (p : bytes * slice -> bool) (k : bytes) (v : slice)
  (es : list (bytes * slice)) :
  p (k, v) = true -> forallb p es = true -> forallb p (insert k v es) = true.
Proof.
  intros Hp. induction es as [|[k' v'] es IH]; simpl.
  - now rewrite Hp.
  - intros H. apply andb_prop in H as [H1 H2].
    destruct (Compare k k'); simpl; rewrite ?Hp, ?H1, ?H2; auto.
Qed.

Lemma ltb_trans (a b c : bytes) : ltb a b = true -> ltb b c = true -> ltb a c = true.
Proof.
  unfold ltb. destruct (Compare a b) eqn:E1; try discriminate.
  destruct (Compare b c) eqn:E2; try discriminate.
  now rewrite (Compare_lt_trans _ _ _ E1 E2).
Qed.

Lemma sorted_insert (k : bytes) (v : slice) (es : list (bytes * slice)) :
  sorted es = true -> sorted (insert k v es) = true.
Proof.
  induction es as [|[k' v'] es IH]; simpl; [reflexivity|].
  intros H. apply andb_prop in H as [H1 H2].
  destruct (Compare k k') eqn:E; simpl.
  - apply Compare_eq in E. subst k'. now rewrite H1, H2.
  - rewrite H1, H2.
    assert (L : ltb k k' = true) by (unfold ltb; now rewrite E).
    rewrite L; simpl. rewrite andb_true_r.
    rewrite forallb_forall in H1 |- *. intros x Hx.
    eapply ltb_trans; eauto.
  - rewrite (IH H2), andb_true_r.
    apply forallb_insert; [|assumption].
    simpl. unfold ltb. now rewrite (Compare_gt_lt _ _ E).
Qed.

Lemma forallb_filter (p q : bytes * slice -> bool) (es : list (bytes * slice)) :
  forallb p es = true -> forallb p (filter q es) = true.
Proof.
  induction es as [|e es IH]; simpl; [reflexivity|].
  intros H. apply andb_prop in H as [H1 H2].
  destruct (q e); simpl; rewrite ?H1; auto.
Qed.

Lemma sorted_remove (k : bytes) (es : list (bytes * slice)) :
  sorted es = true -> sorted (remove k es) = true.
Proof.
  unfold remove. induction es as [|e es IH]; simpl; [reflexivity|].
  intros H. apply andb_prop in H as [H1 H2].
  destruct (negb (bytes_eqb (fst e) k)); simpl; auto.
  rewrite (IH H2), andb_true_r. now apply forallb_filter.
Qed.

End bolt_facts.

(* ================================================================= *)
(** ** The store of the bolt engine *)

Module boltengine_facts.

Import bolt boltengine spec bolt_facts.

Ltac store_op :=
  unfold Put, Get, Delete, Truncate, NextSequence, bolt.Writable.

(** *** Read-only transactions *)

(** C4. On a store whose transaction is read-only, each of Put, Delete,
    Truncate and NextSequence fails and returns the transaction as it was:
    entries, sequence counter and root directory are untouched. The error
    is [ErrTransactionReadOnly] on every store whose context has not been
    cancelled (the check each operation makes before any other). *)
Theorem read_only_store_rejects_mutation
  (s : Store) (t : Tx) (k : bytes) (v : slice) :
  tx_writable t = false ->
  (ctx_Err (ctx s) = None ->
   Put s k v t = (t, Some ErrTransactionReadOnly) /\
   Delete s k t = (t, Some ErrTransactionReadOnly) /\
   Truncate s t = (t, Some ErrTransactionReadOnly) /\
   NextSequence s t = (t, Fail ErrTransactionReadOnly)) /\
  (exists e1 e2 e3 e4,
     Put s k v t = (t, Some e1) /\
     Delete s k t = (t, Some e2) /\
     Truncate s t = (t, Some e3) /\
     NextSequence s t = (t, Fail e4)).
Proof.
  intros Hro. store_op. rewrite Hro. simpl. split.
  - intros Hlive. rewrite Hlive. auto.
  - destruct (ctx_Err (ctx s)) as [e|]; eauto 10.
Qed.

Lemma read_only_store_rejects_mutation_witness :
  tx_writable (sample_tx false) = false /\
  ctx_Err (ctx (sample_store Background)) = None /\
  Put (sample_store Background) [x03] (Some [x7a]) (sample_tx false)
    = (sample_tx false, Some ErrTransactionReadOnly) /\
  Delete (sample_store Background) [x03] (sample_tx false)
    = (sample_tx false, Some ErrTransactionReadOnly) /\
  Truncate (sample_store Background) (sample_tx false)
    = (sample_tx false, Some ErrTransactionReadOnly) /\
  NextSequence (sample_store Background) (sample_tx false)
    = (sample_tx false, Fail ErrTransactionReadOnly).
Proof.
  split; [reflexivity|]. split; [reflexivity|].
  apply (proj1 (@read_only_store_rejects_mutation
                  (sample_store Background) (sample_tx false) [x03] (Some [x7a])
                  eq_refl)).
  reflexivity.
Defined.

(** *** Cancellation *)

(** Seek on a cancelled context records the error and moves nothing. *)
Lemma Seek_cancelled (it : iterator) (pivot : bytes) (t : Tx) (e : error) :
  ctx_Err (ictx it) = Some e ->
  Seek it pivot t
  = Some (mkIterator (c it) (reverse it) (item it) (Some e) (ictx it)).
Proof. intros H. unfold Seek. now rewrite H. Qed.

(** C5, as the code has it. When the context of a store is already
    cancelled with error [e]: Put, Get, Delete, Truncate and NextSequence
    return [e] and leave the transaction as it was; Seek on an iterator of
    the store returns nothing, records [e] in the iterator, which is
    invalid from then on, and moves neither cursor nor item. Creating the
    iterator makes no check: it yields an iterator with no error, whose
    first Seek observes the cancellation. *)
Theorem cancellation_checked_first
  (s : Store) (t : Tx) (k : bytes) (v : slice) (pivot : bytes)
  (opts : IteratorOptions)
  (e : error) :
  ctx_Err (ctx s) = Some e ->
  Put s k v t = (t, Some e) /\
  Get s k t = Fail e /\
  Delete s k t = (t, Some e) /\
  Truncate s t = (t, Some e) /\
  NextSequence s t = (t, Fail e) /\
  (forall it : iterator, ictx it = ctx s ->
     exists it', Seek it pivot t = Some it' /\
                 Err it' = Some e /\ Valid it' = false /\
                 c it' = c it /\ item it' = item it) /\
  Err (Iterator s opts) = None /\
  ictx (Iterator s opts) = ctx s.
Proof.
  intros H. store_op. rewrite H.
  repeat split; try reflexivity.
  intros it Hit. rewrite <- Hit in H.
  eexists. split; [apply (Seek_cancelled it pivot t H)|].
  unfold Err, Valid; simpl. repeat split. now destruct (item it).
Qed.

Lemma cancellation_checked_first_witness :
  let s := sample_store (mkContext (Some Canceled)) in
  let t := sample_tx true in
  ctx_Err (ctx s) = Some Canceled /\
  Put s [x02] (Some [x7a]) t = (t, Some Canceled) /\
  Get s [x03] t = Fail Canceled /\
  Err (Iterator s (mkOptions true)) = None.
Proof.
  intros s t.
  pose proof (@cancellation_checked_first s t [x02] (Some [x7a]) [x03]
                (mkOptions true) Canceled eq_refl) as H.
  split; [reflexivity|].
  split; [exact (proj1 H)|].
  split; [exact (proj1 (proj2 H))|].
  reflexivity.
Defined.

(** C5 as stated fails where an iterator is created: on a cancelled
    store the new iterator carries no cancellation error. *)
Lemma Iterator_creation_not_checked :
  ~ (forall (s : Store) (opts : IteratorOptions) (e : error),
       ctx_Err (ctx s) = Some e -> Err (Iterator s opts) = Some e).
Proof.
  intros H.
  specialize (H (sample_store (mkContext (Some Canceled)))
                (mkOptions false) Canceled eq_refl).
  discriminate H.
Qed.

(** *** Put, Get and Delete *)

Lemma contents_store (s : Store) (t : Tx) (x : Bucket) :
  contents s (store t (bucket s) x) = entries x.
Proof. unfold contents. now rewrite deref_store. Qed.

(** Put succeeds on a writable, live store for a key and a value within
    the limits of bolt. *)
Lemma Put_succeeds (s : Store) (t : Tx) (k : bytes) (v : slice) :
  tx_writable t = true -> ctx_Err (ctx s) = None ->
  (0 < len k <= MaxKeySize)%Z -> (len (slice_bytes v) <= MaxValueSize)%Z ->
  exists t', Put s k v t = (t', None) /\ contents s t' = insert k v (contents s t).
Proof.
  intros Hw Hl Hk Hv. store_op. unfold bolt.Put. rewrite Hl, Hw. simpl.
  destruct (len k =? 0)%Z eqn:E0; [apply Z.eqb_eq in E0; lia|].
  destruct (len k >? MaxKeySize)%Z eqn:E1; [apply Z.gtb_lt in E1; lia|].
  destruct (len (slice_bytes v) >? MaxValueSize)%Z eqn:E2; [apply Z.gtb_lt in E2; lia|].
  eexists. split; [reflexivity|]. now rewrite contents_store.
Qed.

(** A successful Put stores the pair in key order. *)
Lemma Put_contents (s : Store) (t t' : Tx) (k : bytes) (v : slice) :
  Put s k v t = (t', None) ->
  contents s t' = insert k v (contents s t) /\ ctx_Err (ctx s) = None.
Proof.
  store_op. unfold bolt.Put.
  destruct (ctx_Err (ctx s)); [intros H; inversion H|].
  destruct (negb (tx_writable t)); [intros H; inversion H|].
  destruct (len k =? 0)%Z; [intros H; inversion H|].
  destruct (len k >? MaxKeySize)%Z; [intros H; inversion H|].
  destruct (len (slice_bytes v) >? MaxValueSize)%Z; [intros H; inversion H|].
  intros H; inversion H; subst. now rewrite contents_store.
Qed.

(** After any step the contents are the old ones, or the old ones with a
    pair inserted or a key removed. *)
Lemma step_contents (s : Store) (o : op) (t : Tx) :
  contents s (step s o t) = contents s t \/
  (exists k v, o = OpPut k v /\
               contents s (step s o t) = insert k v (contents s t)) \/
  (exists k, o = OpDelete k /\
             contents s (step s o t) = remove k (contents s t)).
Proof.
  destruct o as [k v|k|k|]; simpl.
  - destruct (Put s k v t) as [t' [e|]] eqn:E.
    + left. revert E. store_op. unfold bolt.Put.
      destruct (ctx_Err (ctx s)); [intros H; now inversion H|].
      destruct (negb (tx_writable t)); [intros H; now inversion H|].
      destruct (len k =? 0)%Z; [intros H; now inversion H|].
      destruct (len k >? MaxKeySize)%Z; [intros H; now inversion H|].
      destruct (len (slice_bytes v) >? MaxValueSize)%Z; [intros H; now inversion H|].
      intros H; inversion H.
    + right; left. exists k, v. split; [reflexivity|].
      now apply Put_contents in E.
  - store_op. unfold bolt.Delete, bolt.Get.
    destruct (ctx_Err (ctx s)); [now left|].
    destruct (negb (tx_writable t)); [now left|].
    destruct (lookup k (entries (deref t (bucket s)))) as [[b|]|];
      [|now left|now left].
    right; right. exists k. split; [reflexivity|]. simpl.
    now rewrite contents_store.
  - now left.
  - store_op. unfold bolt.NextSequence.
    destruct (ctx_Err (ctx s)); [now left|].
    destruct (negb (tx_writable t)); [now left|].
    left. simpl. now rewrite contents_store.
Qed.

(** The bucket invariant holds along every run. *)
Lemma step_sorted (s : Store) (o : op) (t : Tx) :
  sorted (contents s t) = true -> sorted (contents s (step s o t)) = true.
Proof.
  intros H.
  destruct (step_contents s o t) as [E|[(k & v & _ & E)|(k & _ & E)]];
    rewrite E; auto using sorted_insert, sorted_remove.
Qed.

Lemma run_sorted (s : Store) (ops : list op) (t : Tx) :
  sorted (contents s t) = true -> sorted (contents s (run s ops t)) = true.
Proof.
  unfold run. revert t. induction ops as [|o ops IH]; simpl; auto.
  intros t H. apply IH. now apply step_sorted.
Qed.

(** A key stays absent along a run that never puts it. *)
Lemma run_absent (s : Store) (k : bytes) (ops : list op) (t : Tx) :
  lookup k (contents s t) = None ->
  (forall k' v', In (OpPut k' v') ops -> k' <> k) ->
  lookup k (contents s (run s ops t)) = None.
Proof.
  unfold run. revert t. induction ops as [|o ops IH]; simpl; auto.
  intros t H Hops. apply IH; [|intros k' v' Hin; apply (Hops k' v'); auto].
  destruct (step_contents s o t) as [E|[(k' & v' & Ho & E)|(k' & _ & E)]];
    rewrite E; auto.
  - apply lookup_insert_other; auto. apply (Hops k' v'). left. now symmetry.
  - now apply lookup_remove_other.
Qed.

(** C9, as the code has it. On a writable store whose context is live:
    Get of a key after a Put of that key that succeeded returns the value
    put when that value is not nil (the empty slice included), and fails
    with [ErrKeyNotFound] when the value put is the nil slice, which Get
    takes for a missing key; Get of a key after Delete of that key fails
    with [ErrKeyNotFound]; Get of a key that no Put of a run from an empty
    bucket wrote fails with [ErrKeyNotFound]; and Delete of a key that Get
    does not find fails with [ErrKeyNotFound], the transaction staying as
    it was. Put does succeed for every non-empty key and every value within
    the size limits of bolt. *)
Theorem Get_after_Put_and_Delete (s : Store) (t : Tx) (k : bytes) (v : slice) :
  tx_writable t = true ->
  ctx_Err (ctx s) = None ->
  (forall t', Put s k v t = (t', None) ->
     Get s k t' = match v with
                  | Some b => Ok b
                  | None => Fail ErrKeyNotFound
                  end) /\
  Get s k (fst (Delete s k t)) = Fail ErrKeyNotFound /\
  (forall ops : list op,
      contents s t = [] ->
      (forall k' v', In (OpPut k' v') ops -> k' <> k) ->
      Get s k (run s ops t) = Fail ErrKeyNotFound) /\
  (Get s k t = Fail ErrKeyNotFound ->
   Delete s k t = (t, Some ErrKeyNotFound)) /\
  ((0 < len k <= MaxKeySize)%Z -> (len (slice_bytes v) <= MaxValueSize)%Z ->
   exists t', Put s k v t = (t', None)).
Proof.
  intros Hw Hl. repeat split.
  - intros t' HP. apply Put_contents in HP as [HP _].
    unfold Get, bolt.Get. rewrite Hl. fold (contents s t').
    rewrite HP, lookup_insert. now destruct v.
  - unfold Delete, Get, bolt.Get, bolt.Delete, bolt.Writable.
    rewrite Hl, Hw. simpl.
    destruct (lookup k (entries (deref t (bucket s)))) as [[b|]|] eqn:E; simpl.
    + rewrite Nat.eqb_refl. simpl. now rewrite lookup_remove.
    + now rewrite E.
    + now rewrite E.
  - intros ops Hempty Hops. unfold Get, bolt.Get. rewrite Hl.
    fold (contents s (run s ops t)).
    rewrite run_absent; auto. now rewrite Hempty.
  - unfold Delete, Get, bolt.Get, bolt.Writable. rewrite Hl, Hw. simpl.
    destruct (lookup k (entries (deref t (bucket s)))) as [[b|]|];
      [discriminate|auto|auto].
  - intros Hk Hv.
    destruct (Put_succeeds s t k v Hw Hl Hk Hv) as (t' & HP & _). eauto.
Qed.

Lemma Get_after_Put_and_Delete_witness :
  let s := sample_store Background in
  let t := sample_tx true in
  tx_writable t = true /\ ctx_Err (ctx s) = None /\
  Get s [x04] (fst (Put s [x04] (Some [x7a]) t)) = Ok [x7a] /\
  Get s [x04] (fst (Put s [x04] (Some []) t)) = Ok [] /\
  Get s [x03] (fst (Delete s [x03] t)) = Fail ErrKeyNotFound /\
  Delete s [x04] t = (t, Some ErrKeyNotFound).
Proof.
  intros s t.
  pose proof (@Get_after_Put_and_Delete s t [x04] (Some [x7a]) eq_refl eq_refl)
    as (HP & _ & _ & HD & _).
  pose proof (@Get_after_Put_and_Delete s t [x04] (Some []) eq_refl eq_refl)
    as (HE & _).
  pose proof (@Get_after_Put_and_Delete s t [x03] (Some [x7a]) eq_refl eq_refl)
    as (_ & HG & _).
  split; [reflexivity|]. split; [reflexivity|].
  split; [apply (HP _ eq_refl)|].
  split; [apply (HE _ eq_refl)|].
  split; [exact HG|].
  apply HD. reflexivity.
Defined.

(** C9 as stated fails for the nil value: on the writable store with keys
    1, 3, 5 and 7, Put of key 4 with a nil value succeeds and Get of key 4
    then returns no value. *)
Lemma Get_after_Put_of_nil :
  ~ (forall (v : slice) (t' : Tx),
       Put (sample_store Background) [x04] v (sample_tx true) = (t', None) ->
       Get (sample_store Background) [x04] t' = Ok (slice_bytes v)).
Proof.
  intros H. specialize (H None _ eq_refl). discriminate H.
Qed.

End boltengine_facts.

(* ================================================================= *)
(** ** The iterator of the bolt engine *)

Module iterator_facts.

Import bolt boltengine spec bolt_facts.

(** What [Cursor.Seek] finds: every entry before the landing point is
    below the key sought, and the entry at the landing point, if there is
    one, is not. *)
Lemma first_ge_spec (seek : bytes) (es : list (bytes * slice)) :
  (forall j e, j < first_ge seek es -> nth_error es j = Some e ->
               Compare (fst e) seek = Lt) /\
  match nth_error es (first_ge seek es) with
  | Some e => Compare (fst e) seek <> Lt
  | None => first_ge seek es = List.length es
  end.
Proof.
  induction es as [|[k v] es [IH1 IH2]]; simpl.
  - split; [intros j e Hj; inversion Hj | reflexivity].
  - destruct (Compare k seek) eqn:E; simpl.
    + split; [intros j e Hj; inversion Hj | congruence].
    + split.
      * intros [|j] e Hj; simpl.
        -- intros H; inversion H; subst; assumption.
        -- apply IH1. lia.
      * destruct (nth_error es (first_ge seek es)); auto.
    + split; [intros j e Hj; inversion Hj | congruence].
Qed.

Lemma first_ge_le (seek : bytes) (es : list (bytes * slice)) :
  first_ge seek es <= List.length es.
Proof.
  induction es as [|[k v] es IH]; simpl; [lia|].
  destruct (Compare k seek); simpl; lia.
Qed.

(** In a bucket that satisfies the invariant, keys increase with the
    position. *)
Lemma sorted_nth (es : list (bytes * slice)) :
  sorted es = true ->
  forall i j e e', i < j -> nth_error es i = Some e -> nth_error es j = Some e' ->
                   Compare (fst e) (fst e') = Lt.
Proof.
  induction es as [|a es IH]; simpl; intros Hs i j e e' Hij Hi Hj.
  - destruct i; discriminate.
  - apply andb_prop in Hs as [Ha Hs].
    destruct j as [|j]; [lia|]. simpl in Hj.
    destruct i as [|i]; simpl in Hi.
    + inversion Hi; subst a.
      rewrite forallb_forall in Ha.
      specialize (Ha e' (nth_error_In _ _ Hj)).
      unfold ltb in Ha. destruct (Compare (fst e) (fst e')); congruence.
    + apply (IH Hs i j); auto. lia.
Qed.

(** The loop of Seek: one test when the key is not above the pivot, one
    step back otherwise. *)
Lemma loop_stop (fuel : nat) (t : Tx) (pivot : bytes) (cur : Cursor) (i : bolt.item) :
  Compare (item_key i) pivot <> Gt ->
  prev_while_greater fuel t pivot cur i = Some (cur, i).
Proof.
  intros H. destruct fuel; simpl; destruct (Compare (item_key i) pivot);
    congruence.
Qed.

Lemma loop_step (fuel : nat) (t : Tx) (pivot : bytes) (cur : Cursor) (i : bolt.item) :
  Compare (item_key i) pivot = Gt ->
  prev_while_greater (S fuel) t pivot cur i
  = prev_while_greater fuel t pivot (fst (Prev t cur)) (snd (Prev t cur)).
Proof.
  intros H. simpl. rewrite H. now destruct (Prev t cur).
Qed.

(** The loop ends: from position [i] it takes at most [i + 1] steps. *)
Lemma loop_total (fuel : nat) (t : Tx) (pivot : bytes) (b : bucket_id) :
  forall (i : nat) (x : bolt.item), i < fuel ->
    exists r, prev_while_greater fuel t pivot (mkCursor b (At i)) x = Some r.
Proof.
  induction fuel as [|fuel IH]; intros i x Hi; [lia|].
  destruct (Compare (item_key x) pivot) eqn:E.
  - eexists. apply loop_stop. congruence.
  - eexists. apply loop_stop. congruence.
  - rewrite loop_step by exact E. unfold Prev; simpl.
    destruct i as [|i]; simpl.
    + eexists. apply loop_stop. apply Compare_nil_not_gt.
    + apply IH. lia.
Qed.

(** Seek returns, in either direction and on any bucket. *)
Lemma Seek_total (it : iterator) (pivot : bytes) (t : Tx) :
  exists it', Seek it pivot t = Some it'.
Proof.
  unfold Seek.
  destruct (ctx_Err (ictx it)); [eauto|].
  destruct (negb (reverse it)).
  { destruct (bolt.Seek t (c it) pivot). eauto. }
  destruct (Nat.eqb (List.length pivot) 0).
  { destruct (Last t (c it)). eauto. }
  unfold bolt.Seek.
  destruct (nth_error _ _) as [e|]; [|eauto].
  edestruct (@loop_total
               (seek_fuel t (mkCursor (c_bucket (c it))
                  (At (first_ge pivot (entries (deref t (c_bucket (c it))))))))
               t pivot (c_bucket (c it))
               (first_ge pivot (entries (deref t (c_bucket (c it)))))
               (Some e)) as [[cur' i'] Hr].
  { unfold seek_fuel; simpl.
    pose proof (first_ge_le pivot (entries (deref t (c_bucket (c it))))). lia. }
  rewrite Hr. eauto.
Qed.

(** The entries on the two sides of the landing point of [Cursor.Seek],
    against the pivot. *)
Lemma above_landing (pivot : bytes) (es : list (bytes * slice))
  (i m : nat) (e e' : bytes * slice) :
  sorted es = true ->
  nth_error es i = Some e -> Compare (fst e) pivot = Gt ->
  nth_error es m = Some e' -> i <= m ->
  Compare (fst e') pivot = Gt.
Proof.
  intros Hs Hi Hgt Hm Him.
  destruct (Nat.eq_dec i m) as [->|Hne].
  - congruence.
  - assert (L : Compare (fst e) (fst e') = Lt)
      by (apply (sorted_nth es Hs (i := i) (j := m)); auto; lia).
    apply Compare_lt_gt.
    apply (Compare_lt_trans pivot (fst e) (fst e')); auto.
    now apply Compare_gt_lt.
Qed.

(** C1, as the code has it. On a store whose bucket satisfies the
    invariant and whose context is live, Seek on a reverse iterator
    returns without error, and
    - with an empty pivot the iterator is on the last entry of the store;
    - with a pivot that some key of the store is greater than or equal
      to, the iterator is on the entry with the greatest key not above
      the pivot when there is such a key, and invalid when every key is
      above the pivot;
    - with a pivot above every key of the store, the iterator is
      invalid, whatever the store holds. *)
Theorem Seek_reverse (s : Store) (t : Tx) (pivot : bytes) :
  sorted (contents s t) = true ->
  ctx_Err (ctx s) = None ->
  exists it',
    Seek (reverse_iterator s) pivot t = Some it' /\
    Err it' = None /\
    (pivot = [] -> Item it' = last_entry (contents s t)) /\
    (pivot <> [] ->
     (exists e, In e (contents s t) /\ bytes_le pivot (fst e)) ->
     ((exists e, In e (contents s t) /\ bytes_le (fst e) pivot) ->
      exists e, Item it' = Some e /\ greatest_le (contents s t) pivot e) /\
     ((forall e, In e (contents s t) -> ~ bytes_le (fst e) pivot) ->
      Valid it' = false)) /\
    (pivot <> [] ->
     (forall e, In e (contents s t) -> bytes_lt (fst e) pivot) ->
     Valid it' = false).
Proof.
  intros Hs Hl.
  unfold Seek, reverse_iterator, Iterator; cbn -[prev_while_greater seek_fuel].
  rewrite Hl.
  destruct pivot as [|p pivot]; cbn -[prev_while_greater seek_fuel].
  { (* empty pivot: Last *)
    unfold Last, NewCursor; simpl. fold (contents s t).
    unfold last_entry.
    destruct (contents s t) as [|e es] eqn:E; simpl.
    - eexists. split; [reflexivity|]. repeat split; intros; congruence.
    - eexists. split; [reflexivity|]. repeat split; intros; congruence. }
  set (pv := p :: pivot).
  unfold bolt.Seek, NewCursor; cbn -[prev_while_greater seek_fuel].
  fold (contents s t).
  destruct (first_ge_spec pv (contents s t)) as [Hbefore Hat].
  set (i := first_ge pv (contents s t)) in *.
  destruct (nth_error (contents s t) i) as [e|] eqn:Ei.
  2:{ (* no key at or above the pivot *)
    eexists. split; [reflexivity|]. split; [reflexivity|].
    split; [discriminate|].
    assert (Hall : forall e, In e (contents s t) -> Compare (fst e) pv = Lt).
    { intros e He. apply In_nth_error in He as [m Hm].
      apply (Hbefore m e); auto. rewrite Hat.
      apply nth_error_Some. congruence. }
    split; [|reflexivity].
    intros _ [e [He Hle]]. exfalso. apply Hle.
    apply Compare_lt_gt. auto. }
  destruct (Compare (fst e) pv) eqn:Ecmp; [|congruence|].
  - (* the pivot is a key of the store *)
    rewrite loop_stop by (simpl; destruct e; simpl in *; congruence).
    eexists. split; [reflexivity|]. split; [reflexivity|].
    split; [discriminate|].
    assert (Hin : In e (contents s t)) by (eapply nth_error_In; eauto).
    split.
    + intros _ _. split.
      * intros _. exists e. split; [reflexivity|].
        split; [assumption|]. split; [unfold bytes_le; congruence|].
        intros e' _ Hle. apply Compare_eq in Ecmp. now rewrite Ecmp.
      * intros Hnone. exfalso. apply (Hnone e Hin). unfold bytes_le. congruence.
    + intros _ Hall. specialize (Hall e Hin). unfold bytes_lt in Hall. congruence.
  - (* the landing key is above the pivot: one step back *)
    unfold seek_fuel; cbn -[prev_while_greater]. fold (contents s t).
    rewrite loop_step by (destruct e; simpl in *; congruence).
    unfold Prev; simpl. fold (contents s t).
    assert (Hin : In e (contents s t)) by (eapply nth_error_In; eauto).
    destruct i as [|j] eqn:Eidx; simpl.
    + (* it was the first key: every key is above the pivot *)
      rewrite loop_stop by (simpl; discriminate).
      eexists. split; [reflexivity|]. split; [reflexivity|].
      split; [discriminate|].
      split; [|reflexivity].
      intros _ _. split; [|reflexivity].
      intros [e' [He' Hle]]. exfalso. apply Hle.
      apply In_nth_error in He' as [m Hm].
      apply (@above_landing pv (contents s t) 0 m e e'); auto. lia.
    + (* the key before is the greatest one not above the pivot *)
      destruct (nth_error (contents s t) j) as [ej|] eqn:Ej.
      2:{ exfalso. apply nth_error_None in Ej.
          assert (S j < List.length (contents s t))
            by (apply nth_error_Some; congruence). lia. }
      assert (Hj : Compare (fst ej) pv = Lt) by (apply (Hbefore j ej); auto).
      assert (Hinj : In ej (contents s t)) by (eapply nth_error_In; eauto).
      rewrite loop_stop by (destruct ej; simpl in *; congruence).
      eexists. split; [reflexivity|]. split; [reflexivity|].
      split; [discriminate|].
      split.
      * intros _ _. split.
        -- intros _. exists ej. split; [reflexivity|].
           split; [assumption|]. split; [unfold bytes_le; congruence|].
           intros e' He' Hle. unfold bytes_le.
           apply In_nth_error in He' as [m Hm].
           destruct (Nat.lt_trichotomy m j) as [Hlt|[->|Hgt]].
           ++ rewrite (sorted_nth (contents s t) Hs Hlt Hm Ej). discriminate.
           ++ assert (e' = ej) by congruence. subst. rewrite Compare_refl.
              discriminate.
           ++ exfalso. apply Hle.
              apply (@above_landing pv (contents s t) (S j) m e e'); auto.
        -- intros Hnone. exfalso. apply (Hnone ej Hinj).
           unfold bytes_le. congruence.
      * intros _ Hall. specialize (Hall e Hin). unfold bytes_lt in Hall.
        congruence.
Qed.

Lemma Seek_reverse_witness :
  sorted (contents (sample_store Background) (sample_tx true)) = true /\
  ctx_Err (ctx (sample_store Background)) = None /\
  exists it',
    Seek (reverse_iterator (sample_store Background)) [x06] (sample_tx true)
    = Some it' /\ Err it' = None.
Proof.
  split; [reflexivity|]. split; [reflexivity|].
  destruct (@Seek_reverse (sample_store Background) (sample_tx true) [x06]
              eq_refl eq_refl) as (it' & H1 & H2 & _).
  exists it'. split; assumption.
Defined.

(** The landing points on the store with keys 1, 3, 5 and 7. *)
Example Seek_reverse_pivot_6 :
  option_map Item
    (Seek (reverse_iterator (sample_store Background)) [x06] (sample_tx true))
  = Some (Some ([x05], Some [x63])).
Proof. reflexivity. Qed.

Example Seek_reverse_pivot_5 :
  option_map Item
    (Seek (reverse_iterator (sample_store Background)) [x05] (sample_tx true))
  = Some (Some ([x05], Some [x63])).
Proof. reflexivity. Qed.

Example Seek_reverse_pivot_empty :
  option_map Item
    (Seek (reverse_iterator (sample_store Background)) [] (sample_tx true))
  = Some (Some ([x07], Some [x64])).
Proof. reflexivity. Qed.

Example Seek_reverse_pivot_0 :
  option_map Valid
    (Seek (reverse_iterator (sample_store Background)) [x00] (sample_tx true))
  = Some false.
Proof. reflexivity. Qed.

(** C1 as stated fails for a pivot above the last key: on the store with
    keys 1, 3, 5 and 7 the greatest key not above 8 is 7, and the reverse
    iterator sought at 8 is invalid. *)
Lemma Seek_reverse_above_last_key :
  ~ (forall (pivot : bytes) (e : bytes * slice),
       greatest_le (contents (sample_store Background) (sample_tx true)) pivot e ->
       exists it',
         Seek (reverse_iterator (sample_store Background)) pivot (sample_tx true)
         = Some it' /\ Item it' = Some e).
Proof.
  intros H.
  destruct (H [x08] ([x07], Some [x64])) as (it' & Hseek & Hitem).
  - split; [simpl; tauto|]. split; [vm_compute; discriminate|].
    intros e' [<-|[<-|[<-|[<-|[]]]]] _; vm_compute; discriminate.
  - vm_compute in Hseek. inversion Hseek; subst it'.
    discriminate Hitem.
Qed.

End iterator_facts.


(* ================================================================= *)
(** ** Result projection *)

Module projection_facts.

Import query samples.

Section Projection.

Variable Value : Type.
Variable ValueType : Type.
Variable Int64Value : ValueType.
Variable DecodeValue : ValueType -> bytes -> result Value.
Variable Path_GetValue : ValuePath -> option (Document Value) -> result Value.
Variable Path_String : ValuePath -> string.
Variable Transaction : Type.
Variable NamedValue : Type.

Local Abbreviation EvalStack := (EvalStack Value Transaction NamedValue).
Local Abbreviation Expr := (Expr Value Transaction NamedValue).
Local Abbreviation ResultField := (ResultField Value Transaction NamedValue).
Local Abbreviation documentMask := (documentMask Value Transaction NamedValue).
Local Abbreviation KeyFunc_Iterate :=
  (@KeyFunc_Iterate Value ValueType Int64Value DecodeValue Path_GetValue
                    Path_String Transaction NamedValue).
Local Abbreviation mask_Iterate :=
  (@mask_Iterate Value ValueType Int64Value DecodeValue Path_GetValue
                 Path_String Transaction NamedValue).

(** The stack [documentMask.Iterate] evaluates the result fields on. *)
Local Abbreviation stack_of m := (mkEvalStack (None : option Transaction) [] (Some (r m)) (cfg m)).

(** C2, as the code has it. When the expression of a result field
    evaluates to [ErrFieldNotFound], the error is suppressed and the
    callback is invoked once, with the name of the field and the value the
    evaluation returned beside the error; the projection then goes on to the
    next result field unless the callback failed. Any other evaluation error
    aborts the projection with that error before the callback is invoked. *)
Theorem ResultFieldExpr_field_not_found
  (e : Expr) (name : string) (stack : EvalStack) (v : Value)
  (S : Type) (fn : emit Value S) (st : S) :
  (e stack = (v, Some ErrFieldNotFound) ->
   ResultFieldExpr_Iterate e name stack fn st = fn name v st) /\
  (forall er, e stack = (v, Some er) -> er <> ErrFieldNotFound ->
   ResultFieldExpr_Iterate e name stack fn st = (st, Some er)) /\
  (forall (m : documentMask) (rest : list ResultField),
     resultFields m = ResultFieldExpr e name :: rest ->
     (e (stack_of m) = (v, Some ErrFieldNotFound) ->
      mask_Iterate m fn st
      = match fn name v st with
        | (st', Some err) => (st', Some err)
        | (st', None) => mask_Iterate (mkMask (cfg m) (r m) rest) fn st'
        end) /\
     (forall er, e (stack_of m) = (v, Some er) -> er <> ErrFieldNotFound ->
      mask_Iterate m fn st = (st, Some er))).
Proof.
  split; [|split].
  - intros H. unfold ResultFieldExpr_Iterate. rewrite H.
    destruct (error_eq_dec ErrFieldNotFound ErrFieldNotFound); congruence.
  - intros er H Hne. unfold ResultFieldExpr_Iterate. rewrite H.
    destruct (error_eq_dec er ErrFieldNotFound); congruence.
  - intros m rest Hm. unfold query.mask_Iterate. rewrite Hm. simpl.
    unfold ResultFieldExpr_Iterate. split.
    + intros H. rewrite H.
      destruct (error_eq_dec ErrFieldNotFound ErrFieldNotFound); [|congruence].
      destruct (fn name v st) as [st' [err|]]; reflexivity.
    + intros er H Hne. rewrite H.
      destruct (error_eq_dec er ErrFieldNotFound); congruence.
Qed.

(** What [documentMask.GetByField] finds among the result fields. *)
Lemma GetByField_loop_spec (raw : Document Value) (name : string)
  (rfs : list ResultField) :
  ((exists rf, In rf rfs /\ (Name rf = name \/ Name rf = "*"%string)) /\
   GetByField_loop raw name rfs = GetByField raw name) \/
  ((forall rf, In rf rfs -> Name rf <> name /\ Name rf <> "*"%string) /\
   GetByField_loop raw name rfs = Fail ErrFieldNotFound).
Proof.
  induction rfs as [|rf rfs IH]; simpl.
  - right. split; [intros rf []|reflexivity].
  - destruct (String.eqb (Name rf) name) eqn:E1; simpl.
    { left. split; [|reflexivity]. exists rf. split; [now left|].
      left. now apply String.eqb_eq. }
    destruct (String.eqb (Name rf) "*") eqn:E2; simpl.
    { left. split; [|reflexivity]. exists rf. split; [now left|].
      right. now apply String.eqb_eq. }
    apply String.eqb_neq in E1, E2.
    destruct IH as [[(rf' & Hin & Hn) Heq]|[Hall Heq]].
    + left. split; [|assumption]. exists rf'. split; [now right|assumption].
    + right. split; [|assumption].
      intros rf' [<-|Hin]; [split; assumption|now apply Hall].
Qed.

(** C3. A lookup by name on a projected document succeeds only if the
    name is the declared name of some result field or some result field has
    the name of the wildcard, and fails with [ErrFieldNotFound] when no
    result field matches, whatever the raw source document holds: the raw
    document is never consulted directly, only behind that match, where the
    lookup is the lookup of the same name in it. *)
Theorem mask_GetByField_gate (m : documentMask) (name : string) :
  (forall v, mask_GetByField m name = Ok v ->
     (exists rf, In rf (resultFields m) /\
                 (Name rf = name \/ Name rf = "*"%string)) /\
     GetByField (r m) name = Ok v) /\
  ((forall rf, In rf (resultFields m) ->
      Name rf <> name /\ Name rf <> "*"%string) ->
   mask_GetByField m name = Fail ErrFieldNotFound) /\
  ((exists rf, In rf (resultFields m) /\
               (Name rf = name \/ Name rf = "*"%string)) ->
   mask_GetByField m name = GetByField (r m) name).
Proof.
  unfold mask_GetByField.
  destruct (GetByField_loop_spec (r m) name (resultFields m))
    as [[Hex Heq]|[Hall Heq]]; rewrite Heq.
  - split; [|split]; auto.
    intros Hnone. destruct Hex as (rf & Hin & Hn).
    destruct (Hnone rf Hin) as [H1 H2]. destruct Hn; contradiction.
  - split; [|split]; auto.
    + intros v Hv. discriminate Hv.
    + intros (rf & Hin & Hn). destruct (Hall rf Hin) as [H1 H2].
      destruct Hn; contradiction.
Qed.

(** C8. With a table configuration whose primary-key path is not empty,
    the key pseudo-column invokes the callback exactly once, with the name
    of the path and the value of the path in the document; with an empty
    path it invokes the callback exactly once, with the name "key()" and the
    document's storage key decoded as a 64-bit integer. This holds when the
    path resolves in the document, respectively when the key decodes; when
    that fails the error is returned and nothing is emitted. *)
Theorem KeyFunc_emits_primary_key
  (stack : EvalStack) (config : TableConfig) (S : Type) (fn : emit Value S)
  (st : S) :
  Cfg stack = Some config ->
  (PrimaryKey_Path config <> [] ->
   (forall v, Path_GetValue (PrimaryKey_Path config) (Doc stack) = Ok v ->
      KeyFunc_Iterate stack fn st
      = fn (Path_String (PrimaryKey_Path config)) v st) /\
   (forall er, Path_GetValue (PrimaryKey_Path config) (Doc stack) = Fail er ->
      KeyFunc_Iterate stack fn st = (st, Some er))) /\
  (PrimaryKey_Path config = [] ->
   forall d k, Doc stack = Some d -> Key d = Some k ->
     (forall v, DecodeValue Int64Value k = Ok v ->
        KeyFunc_Iterate stack fn st = fn "key()"%string v st) /\
     (forall er, DecodeValue Int64Value k = Fail er ->
        KeyFunc_Iterate stack fn st = (st, Some er))).
Proof.
  intros Hc. unfold query.KeyFunc_Iterate. rewrite Hc. split.
  - intros Hp.
    destruct (PrimaryKey_Path config) as [|f p] eqn:E; [congruence|]. simpl.
    split; intros x Hx; now rewrite Hx.
  - intros Hp d k Hd Hk. rewrite Hp, Hd, Hk. simpl.
    split; intros x Hx; now rewrite Hx.
Qed.

End Projection.

(** On a table without a declared primary key the document with storage
    key 7 projects to the single pair ("key()", 7); with the primary key
    declared on "id" the document projects to its "id" field. *)
Lemma KeyFunc_emits_primary_key_witness :
  let d := rawDocument [("id"%string, VInt 42)] (Some [x07]) in
  Cfg (sStack (Some d) (Some (mkTableConfig []))) = Some (mkTableConfig []) /\
  sKeyFunc_Iterate (sStack (Some d) (Some (mkTableConfig []))) (@collect SValue) []
  = ([("key()"%string, VInt 7)], None) /\
  sKeyFunc_Iterate (sStack (Some d) (Some (mkTableConfig ["id"%string])))
                   (@collect SValue) []
  = ([("id"%string, VInt 42)], None).
Proof.
  intros d.
  pose proof (@KeyFunc_emits_primary_key SValue SType TInt sDecodeValue
                sPath_GetValue sPath_String unit unit
                (sStack (Some d) (Some (mkTableConfig []))) (mkTableConfig [])
                _ (@collect SValue) [] eq_refl) as [_ Hkey].
  pose proof (@KeyFunc_emits_primary_key SValue SType TInt sDecodeValue
                sPath_GetValue sPath_String unit unit
                (sStack (Some d) (Some (mkTableConfig ["id"%string])))
                (mkTableConfig ["id"%string])
                _ (@collect SValue) [] eq_refl) as [Hpath _].
  split; [reflexivity|]. split.
  - apply (proj1 (Hkey eq_refl d [x07] eq_refl eq_refl) (VInt 7)). reflexivity.
  - assert (Hne : PrimaryKey_Path (mkTableConfig ["id"%string]) <> [])
      by discriminate.
    apply (proj1 (Hpath Hne) (VInt 42)). reflexivity.
Defined.

(** A missing field is emitted with the value evaluation returned. *)
Lemma ResultFieldExpr_field_not_found_witness :
  missing_field (sStack None None) = (VNull, Some ErrFieldNotFound) /\
  ResultFieldExpr_Iterate missing_field "nickname" (sStack None None)
                          (@collect SValue) []
  = ([("nickname"%string, VNull)], None).
Proof.
  split; [reflexivity|].
  apply (proj1 (@ResultFieldExpr_field_not_found SValue SType TInt sDecodeValue
                  sPath_GetValue sPath_String unit unit
                  missing_field "nickname"%string (sStack None None) VNull
                  _ (@collect SValue) [])).
  reflexivity.
Defined.

(** A field of the raw document that no result field declares is hidden. *)
Lemma mask_GetByField_gate_witness :
  let raw := rawDocument [("name"%string, VText "ann"); ("age"%string, VInt 3)]
                         None in
  let m := mkMask (Some (mkTableConfig [])) raw
                  [ResultFieldExpr (literal (VInt 1)) "age"] in
  GetByField raw "name" = Ok (VText "ann") /\
  mask_GetByField m "name" = Fail ErrFieldNotFound /\
  mask_GetByField m "age" = Ok (VInt 3).
Proof.
  intros raw m.
  pose proof (@mask_GetByField_gate SValue unit unit m "name"%string)
    as (_ & Hhidden & _).
  pose proof (@mask_GetByField_gate SValue unit unit m "age"%string)
    as (_ & _ & Hshown).
  split; [reflexivity|]. split.
  - apply Hhidden. intros rf [<-|[]]. split; discriminate.
  - rewrite Hshown; [reflexivity|].
    exists (ResultFieldExpr (literal (VInt 1)) "age"). split; [now left|now left].
Defined.

(** A projection of the document {age: 3} on a missing field and the
    wildcard: the missing field is emitted with the value evaluation
    returned, and the projection continues with the wildcard. *)
Example projection_of_missing_field :
  sMask_Iterate
    (mkMask (Some (mkTableConfig [])) (person 3 x03)
            [ResultFieldExpr missing_field "nickname"; Wildcard _ _ _])
    (@collect SValue) []
  = ([("nickname"%string, VNull); ("age"%string, VInt 3)], None).
Proof. reflexivity. Qed.

(** C2 as stated fails: on [ErrFieldNotFound] the callback is invoked, so
    the output does not stay as it was. *)
Lemma field_not_found_is_emitted :
  ~ (forall (e : Expr SValue unit unit) (name : string)
            (stack : EvalStack SValue unit unit) (v : SValue)
            (out : list (string * SValue)),
       e stack = (v, Some ErrFieldNotFound) ->
       ResultFieldExpr_Iterate e name stack (@collect SValue) out = (out, None)).
Proof.
  intros H.
  specialize (H missing_field "nickname"%string (sStack None None) VNull []
                eq_refl).
  discriminate H.
Qed.

(** Lookup and projection may disagree: behind the match the lookup reads
    the field of the raw document, here 5, where the projection emits the
    value of the expression, here 1. *)
Remark lookup_reads_raw_field :
  let m := mkMask (Some (mkTableConfig []))
                  (rawDocument [("x"%string, VInt 5)] None)
                  [ResultFieldExpr (literal (VInt 1)) "x"] in
  mask_GetByField m "x" = Ok (VInt 5) /\
  sMask_Iterate m (@collect SValue) [] = ([("x"%string, VInt 1)], None).
Proof. split; reflexivity. Qed.

End projection_facts.

(* ================================================================= *)
(** ** The SELECT statement *)

Module select_facts.

Import query samples.

(** *** Streams *)

Section Streams.

Variable Value : Type.

Lemma map_until_error_total (f : Document Value -> result (Document Value))
  (g : Document Value -> Document Value) (l : list (Document Value))
  (tail : option error) :
  (forall d, f d = Ok (g d)) -> map_until_error f l tail = (map g l, tail).
Proof.
  intros Hf. induction l as [|d l IH]; simpl; [reflexivity|].
  now rewrite Hf, IH.
Qed.

(** A transform that never fails maps every document and keeps the
    stream's own failure. *)
Lemma Map_total (s : Stream Value)
  (f : Document Value -> result (Document Value))
  (g : Document Value -> Document Value) :
  (forall d, f d = Ok (g d)) ->
  Map s f = mkStream (map g (items s)) (failure s).
Proof.
  intros Hf. unfold Map.
  now rewrite (@map_until_error_total f g (items s) (failure s) Hf).
Qed.

Lemma positions_nth (A : Type) (l : list A) (n k i : nat) :
  nth_error (positions l n k) i
  = if i <? k then nth_error l (n + i) else None.
Proof.
  unfold positions. rewrite nth_error_firstn, nth_error_skipn. reflexivity.
Qed.

Lemma positions_length (A : Type) (l : list A) (n k : nat) :
  List.length (positions l n k) = Nat.min k (List.length l - n).
Proof. unfold positions. now rewrite length_firstn, length_skipn. Qed.

(** Offset then Limit keeps the documents at the positions [n, n + k). *)
Lemma Offset_Limit_positions (s : Stream Value) (n k : nat) :
  items (Limit (Offset s (Z.of_nat n)) (Z.of_nat k)) = positions (items s) n k.
Proof.
  unfold Limit, Offset, positions; simpl. rewrite !Nat2Z.id.
  destruct (Nat.leb k (List.length (skipn n (items s)))) eqn:E; simpl.
  - reflexivity.
  - apply Nat.leb_gt in E. rewrite firstn_all2; [reflexivity|lia].
Qed.

End Streams.

(** *** exec *)

Section Exec.

Variable Value : Type.
Variable ValueType : Type.
Variable Type_of : Value -> ValueType.
Variable IsNumber : ValueType -> bool.
Variable IntValue : ValueType.
Variable Int64Value : ValueType.
Variable ConvertTo : Value -> ValueType -> result Value.
Variable ConvertToInt : Value -> result Z.
Variable TypeQ : ValueType -> string.
Variable DecodeValue : ValueType -> bytes -> result Value.
Variable Path_GetValue : ValuePath -> option (Document Value) -> result Value.
Variable Path_String : ValuePath -> string.
Variable Transaction : Type.
Variable NamedValue : Type.
Variable FieldSelector : Type.
Variable Token : Type.
Variable ASC DESC : Token.
Variable Token_eq_dec : forall a b : Token, {a = b} + {a <> b}.

Local Abbreviation Expr := (Expr Value Transaction NamedValue).
Local Abbreviation SelectStmt :=
  (SelectStmt Value Transaction NamedValue FieldSelector Token).
Local Abbreviation queryOptimizer :=
  (queryOptimizer Value Transaction NamedValue FieldSelector Token).

Variable newQueryOptimizer : Transaction -> string -> result queryOptimizer.
Variable optimizeQuery : queryOptimizer -> result (Stream Value).

Local Abbreviation evalCount :=
  (@evalCount Value ValueType Type_of IsNumber IntValue ConvertTo ConvertToInt
              TypeQ Transaction NamedValue).
Local Abbreviation mask_of :=
  (@mask_of Value ValueType Int64Value DecodeValue Path_GetValue Path_String
            Transaction NamedValue FieldSelector Token).
Local Abbreviation maskDocument :=
  (@maskDocument Value ValueType Int64Value DecodeValue Path_GetValue
                 Path_String Transaction NamedValue).
Local Abbreviation exec :=
  (@exec Value ValueType Type_of IsNumber IntValue Int64Value ConvertTo
         ConvertToInt TypeQ DecodeValue Path_GetValue Path_String
         Transaction NamedValue FieldSelector Token ASC DESC Token_eq_dec
         newQueryOptimizer optimizeQuery).

(** The stack [exec] evaluates OFFSET and LIMIT on. *)
Local Abbreviation stack_of tx args :=
  (mkEvalStack (Some tx) args (None : option (Document Value))
               (None : option TableConfig)).

(** The optimizer as [exec] configures it. *)
Local Abbreviation configured qo0 stmt args limit offset :=
  (mkOptimizer (qo_tx qo0) (qo_tableName qo0) (qo_cfg qo0) (WhereExpr stmt)
     args (OrderBy stmt)
     (if Token_eq_dec (OrderByDirection stmt) DESC then DESC else ASC)
     limit offset).

(** An expression that evaluates to a value that is no number. *)
Lemma evalCount_not_a_number (what : string) (f : Expr)
  (stack : EvalStack Value Transaction NamedValue) (v : Value) :
  f stack = (v, None) -> IsNumber (Type_of v) = false ->
  evalCount what (Some f) stack = Fail (not_a_number TypeQ what (Type_of v)).
Proof.
  intros Hf Hn. unfold query.evalCount. now rewrite Hf, Hn.
Qed.

(** The successful run of [exec]. *)
Lemma exec_success (stmt : SelectStmt) (tx : Transaction)
  (args : list NamedValue) (offset limit : Z) (qo0 : queryOptimizer)
  (st : Stream Value) :
  TableName stmt <> EmptyString ->
  evalCount "offset" (OffsetExpr stmt) (stack_of tx args) = Ok offset ->
  evalCount "limit" (LimitExpr stmt) (stack_of tx args) = Ok limit ->
  newQueryOptimizer tx (TableName stmt) = Ok qo0 ->
  optimizeQuery (configured qo0 stmt args limit offset) = Ok st ->
  exec stmt tx args
  = ([call_newQueryOptimizer _ _ _ _ _ (TableName stmt);
      call_optimizeQuery (configured qo0 stmt args limit offset)],
     Ok (mkResult
           (Map (if (limit >=? 0)%Z
                 then Limit (if (offset >? 0)%Z then Offset st offset else st) limit
                 else if (offset >? 0)%Z then Offset st offset else st)
                (mask_of (configured qo0 stmt args limit offset) stmt)))).
Proof.
  intros Hname Hoff Hlim Hnew Hopt. unfold query.exec.
  apply String.eqb_neq in Hname. rewrite Hname, Hoff, Hlim, Hnew, Hopt.
  destruct (limit >=? 0)%Z; reflexivity.
Qed.

(** C6. When the OFFSET or the LIMIT expression of a statement evaluates
    to a value that is no number, [exec] fails, without a call to the
    optimizer and without a result stream. For a statement that names its
    table the error is the type error of the clause: the one of OFFSET when
    OFFSET is the offender, the one of LIMIT when the OFFSET clause went
    through and LIMIT is the offender. No count is made up for the value. *)
Theorem exec_rejects_non_numeric_count
  (stmt : SelectStmt) (tx : Transaction) (args : list NamedValue)
  (f : Expr) (v : Value) :
  f (stack_of tx args) = (v, None) ->
  IsNumber (Type_of v) = false ->
  OffsetExpr stmt = Some f \/ LimitExpr stmt = Some f ->
  (exists e, exec stmt tx args = ([], Fail e)) /\
  (TableName stmt <> EmptyString -> OffsetExpr stmt = Some f ->
   exec stmt tx args
   = ([], Fail (not_a_number TypeQ "offset" (Type_of v)))) /\
  (TableName stmt <> EmptyString -> LimitExpr stmt = Some f ->
   forall offset,
     evalCount "offset" (OffsetExpr stmt) (stack_of tx args) = Ok offset ->
     exec stmt tx args
     = ([], Fail (not_a_number TypeQ "limit" (Type_of v)))).
Proof.
  intros Hf Hn Hwhich.
  pose proof (@evalCount_not_a_number "offset" f _ v Hf Hn) as Eoff.
  pose proof (@evalCount_not_a_number "limit" f _ v Hf Hn) as Elim.
  split; [|split].
  - unfold query.exec.
    destruct (String.eqb (TableName stmt) EmptyString); [eauto|].
    destruct Hwhich as [H|H]; rewrite H.
    + rewrite Eoff. eauto.
    + destruct (evalCount "offset" (OffsetExpr stmt) (stack_of tx args));
        [|eauto].
      rewrite Elim. eauto.
  - intros Hname H. unfold query.exec.
    apply String.eqb_neq in Hname. now rewrite Hname, H, Eoff.
  - intros Hname H offset Ho. unfold query.exec.
    apply String.eqb_neq in Hname. now rewrite Hname, Ho, H, Elim.
Qed.

(** C7. A statement whose clauses evaluate and whose optimizer yields the
    stream [st] chains, on [st] and in this order, Offset (when the offset
    is positive), then Limit (when the limit is not negative), then the
    projection Map; the optimizer has been called before, with the same
    limit and offset. With a positive offset [n] and a limit [k] the result
    holds the projections of the documents at the positions [n, n + k) of
    [st]. In general Offset [n] then Limit [k] on a stream of [m] documents
    yields the documents at the positions [n, n + k) in their order: fewer
    than [k] when [n + k] exceeds [m], none when [n] is at least [m]. *)
Theorem exec_chains_Offset_Limit_Map
  (stmt : SelectStmt) (tx : Transaction) (args : list NamedValue)
  (offset limit : Z) (qo0 : queryOptimizer) (st : Stream Value) :
  TableName stmt <> EmptyString ->
  evalCount "offset" (OffsetExpr stmt) (stack_of tx args) = Ok offset ->
  evalCount "limit" (LimitExpr stmt) (stack_of tx args) = Ok limit ->
  newQueryOptimizer tx (TableName stmt) = Ok qo0 ->
  optimizeQuery (configured qo0 stmt args limit offset) = Ok st ->
  exec stmt tx args
  = ([call_newQueryOptimizer _ _ _ _ _ (TableName stmt);
      call_optimizeQuery (configured qo0 stmt args limit offset)],
     Ok (mkResult
           (Map (if (limit >=? 0)%Z
                 then Limit (if (offset >? 0)%Z then Offset st offset else st) limit
                 else if (offset >? 0)%Z then Offset st offset else st)
                (mask_of (configured qo0 stmt args limit offset) stmt)))) /\
  ((0 < offset)%Z -> (0 <= limit)%Z ->
   exists res,
     snd (exec stmt tx args) = Ok res /\
     items (ResultStream res)
     = map (fun d => maskDocument (mkMask (qo_cfg qo0) d (Selectors stmt)))
           (positions (items st) (Z.to_nat offset) (Z.to_nat limit))) /\
  (forall (s : Stream Value) (n k : nat),
     items (Limit (Offset s (Z.of_nat n)) (Z.of_nat k)) = positions (items s) n k /\
     (forall i, nth_error (positions (items s) n k) i
                = if i <? k then nth_error (items s) (n + i) else None) /\
     List.length (positions (items s) n k)
     = Nat.min k (List.length (items s) - n) /\
     (List.length (items s) <= n -> positions (items s) n k = [])).
Proof.
  intros Hname Hoff Hlim Hnew Hopt.
  pose proof (@exec_success stmt tx args offset limit qo0 st Hname Hoff Hlim Hnew Hopt) as E.
  split; [exact E|]. split.
  - intros Hpos Hnn. rewrite E. simpl. eexists. split; [reflexivity|].
    assert (Hl : (limit >=? 0)%Z = true) by (apply Z.geb_le; lia).
    assert (Ho : (offset >? 0)%Z = true) by (apply Z.gtb_lt; lia).
    rewrite Hl, Ho. cbn [ResultStream].
    rewrite Map_total
      with (g := fun d => maskDocument (mkMask (qo_cfg qo0) d (Selectors stmt)))
      by reflexivity.
    cbn [items]. f_equal.
    rewrite <- (Z2Nat.id offset) at 1 by lia.
    rewrite <- (Z2Nat.id limit) at 1 by lia.
    apply Offset_Limit_positions.
  - intros s n k. split; [apply Offset_Limit_positions|].
    split; [intros i; apply positions_nth|].
    split; [apply positions_length|].
    intros Hm. apply length_zero_iff_nil. rewrite positions_length. lia.
Qed.

(** C10. In a statement whose clauses evaluate and whose optimizer yields
    the stream [st], Offset is chained exactly when the offset is positive
    and Limit exactly when the limit is not negative. So an offset of zero
    or below leaves the stream as it is; a limit of zero yields an empty
    result; a negative limit chains no Limit, as does an absent LIMIT
    clause, whose count is -1 (and likewise for an absent OFFSET). *)
Theorem exec_Offset_Limit_thresholds
  (stmt : SelectStmt) (tx : Transaction) (args : list NamedValue)
  (offset limit : Z) (qo0 : queryOptimizer) (st : Stream Value) :
  TableName stmt <> EmptyString ->
  evalCount "offset" (OffsetExpr stmt) (stack_of tx args) = Ok offset ->
  evalCount "limit" (LimitExpr stmt) (stack_of tx args) = Ok limit ->
  newQueryOptimizer tx (TableName stmt) = Ok qo0 ->
  optimizeQuery (configured qo0 stmt args limit offset) = Ok st ->
  exists res,
    snd (exec stmt tx args) = Ok res /\
    ((offset <= 0)%Z ->
     ResultStream res
     = Map (if (limit >=? 0)%Z then Limit st limit else st)
           (mask_of (configured qo0 stmt args limit offset) stmt)) /\
    ((0 < offset)%Z ->
     ResultStream res
     = Map (if (limit >=? 0)%Z then Limit (Offset st offset) limit
            else Offset st offset)
           (mask_of (configured qo0 stmt args limit offset) stmt)) /\
    ((limit < 0)%Z ->
     ResultStream res
     = Map (if (offset >? 0)%Z then Offset st offset else st)
           (mask_of (configured qo0 stmt args limit offset) stmt)) /\
    ((0 <= limit)%Z ->
     ResultStream res
     = Map (Limit (if (offset >? 0)%Z then Offset st offset else st) limit)
           (mask_of (configured qo0 stmt args limit offset) stmt)) /\
    (limit = 0%Z ->
     items (ResultStream res) = [] /\ failure (ResultStream res) = None) /\
    (OffsetExpr stmt = None -> offset = (-1)%Z) /\
    (LimitExpr stmt = None -> limit = (-1)%Z).
Proof.
  intros Hname Hoff Hlim Hnew Hopt.
  rewrite (@exec_success stmt tx args offset limit qo0 st Hname Hoff Hlim Hnew Hopt).
  eexists. split; [reflexivity|]. cbn [ResultStream].
  repeat split.
  - intros H. assert (E : (offset >? 0)%Z = false) by (rewrite Z.gtb_ltb; apply Z.ltb_ge; lia).
    now rewrite E.
  - intros H. assert (E : (offset >? 0)%Z = true) by (apply Z.gtb_lt; lia).
    now rewrite E.
  - intros H. assert (E : (limit >=? 0)%Z = false) by (rewrite Z.geb_leb; apply Z.leb_gt; lia).
    now rewrite E.
  - intros H. assert (E : (limit >=? 0)%Z = true) by (apply Z.geb_le; lia).
    now rewrite E.
  - subst limit. change (0 >=? 0)%Z with true. cbv iota.
    rewrite Map_total
      with (g := fun d => maskDocument
                  (mkMask (qo_cfg (configured qo0 stmt args 0%Z offset)) d
                          (Selectors stmt)))
      by reflexivity.
    reflexivity.
  - subst limit. change (0 >=? 0)%Z with true. cbv iota.
    rewrite Map_total
      with (g := fun d => maskDocument
                  (mkMask (qo_cfg (configured qo0 stmt args 0%Z offset)) d
                          (Selectors stmt)))
      by reflexivity.
    reflexivity.
  - intros H. rewrite H in Hoff. simpl in Hoff. congruence.
  - intros H. rewrite H in Hlim. simpl in Hlim. congruence.
Qed.

End Exec.

(** *** The statements on the table of five people *)

(** LIMIT 'ten'. *)
Lemma exec_rejects_non_numeric_count_witness :
  let ten := literal (VText "ten") in
  let stmt := select_people None (Some ten) in
  ten (mkEvalStack (Some tt) [] None None) = (VText "ten", None) /\
  sIsNumber (sType_of (VText "ten")) = false /\
  (OffsetExpr stmt = Some ten \/ LimitExpr stmt = Some ten) /\
  sExec stmt tt [] = ([], Fail (not_a_number sTypeQ "limit" TText)).
Proof.
  intros ten stmt.
  split; [reflexivity|]. split; [reflexivity|]. split; [now right|].
  assert (Hname : TableName stmt <> EmptyString) by discriminate.
  apply (proj2 (proj2
           (@exec_rejects_non_numeric_count SValue SType sType_of sIsNumber
              TInt TInt sConvertTo sConvertToInt sTypeQ sDecodeValue
              sPath_GetValue sPath_String unit unit string bool false true
              Bool.bool_dec sNewQueryOptimizer sOptimizeQuery
              stmt tt [] ten (VText "ten") eq_refl eq_refl
              (or_intror eq_refl)))
           Hname eq_refl (-1)%Z eq_refl).
Defined.

(** OFFSET 1 LIMIT 2 yields the second and the third person. *)
Lemma exec_chains_Offset_Limit_Map_witness :
  let stmt := select_people (Some (literal (VInt 1))) (Some (literal (VInt 2))) in
  TableName stmt <> EmptyString /\
  exists res,
    snd (sExec stmt tt []) = Ok res /\
    List.length (items (ResultStream res)) = 2 /\
    map (fun d => GetByField d "age") (items (ResultStream res))
    = [Ok (VInt 2); Ok (VInt 3)].
Proof.
  intros stmt.
  assert (Hname : TableName stmt <> EmptyString) by discriminate.
  split; [exact Hname|].
  destruct (@exec_chains_Offset_Limit_Map SValue SType sType_of sIsNumber
              TInt TInt sConvertTo sConvertToInt sTypeQ sDecodeValue
              sPath_GetValue sPath_String unit unit string bool false true
              Bool.bool_dec sNewQueryOptimizer sOptimizeQuery
              stmt tt [] 1%Z 2%Z
              (mkOptimizer tt "people" (Some (mkTableConfig [])) None []
                           EmptyString false 0 0)
              (mkStream people None)
              Hname eq_refl eq_refl eq_refl eq_refl) as (_ & H & _).
  assert (Hl : (0 <= 2)%Z) by lia.
  destruct (H eq_refl Hl) as (res & Hres & Hitems).
  exists res. split; [exact Hres|].
  rewrite Hitems. split; reflexivity.
Defined.

(** OFFSET 0 LIMIT 0 yields nothing. *)
Lemma exec_Offset_Limit_thresholds_witness :
  let stmt := select_people (Some (literal (VInt 0))) (Some (literal (VInt 0))) in
  TableName stmt <> EmptyString /\
  exists res,
    snd (sExec stmt tt []) = Ok res /\ items (ResultStream res) = [].
Proof.
  intros stmt.
  assert (Hname : TableName stmt <> EmptyString) by discriminate.
  split; [exact Hname|].
  destruct (@exec_Offset_Limit_thresholds SValue SType sType_of sIsNumber
              TInt TInt sConvertTo sConvertToInt sTypeQ sDecodeValue
              sPath_GetValue sPath_String unit unit string bool false true
              Bool.bool_dec sNewQueryOptimizer sOptimizeQuery
              stmt tt [] 0%Z 0%Z
              (mkOptimizer tt "people" (Some (mkTableConfig [])) None []
                           EmptyString false 0 0)
              (mkStream people None)
              Hname eq_refl eq_refl eq_refl eq_refl)
    as (res & Hres & _ & _ & _ & _ & Hzero & _).
  exists res. split; [exact Hres|]. exact (proj1 (Hzero eq_refl)).
Defined.

(** A negative limit and an absent LIMIT clause both yield every person. *)
Example exec_negative_limit :
  option_map (fun res => List.length (items (ResultStream res)))
    (match snd (sExec (select_people None (Some (literal (VInt (-3))))) tt [])
     with Ok res => Some res | Fail _ => None end)
  = Some 5 /\
  option_map (fun res => List.length (items (ResultStream res)))
    (match snd (sExec (select_people None None) tt [])
     with Ok res => Some res | Fail _ => None end)
  = Some 5.
Proof. split; reflexivity. Qed.

End select_facts.

(* ================================================================= *)
(** ** Further properties of the store *)

Module store_more.

Import bolt boltengine spec usage bolt_facts boltengine_facts.

Lemma lookup_insert_frame (k k' : bytes) (v : slice) (es : list (bytes * slice)) :
  k' <> k -> lookup k' (insert k v es) = lookup k' es.
Proof.
  unfold lookup. intros Hne.
  assert (Hk : bytes_eqb k k' = false) by (apply bytes_eqb_neq; congruence).
  induction es as [|[k0 v0] es IH]; simpl.
  - now rewrite Hk.
  - destruct (Compare k k0) eqn:E; simpl.
    + apply Compare_eq in E. subst k0. now rewrite Hk.
    + now rewrite Hk.
    + destruct (bytes_eqb k0 k'); auto.
Qed.

Lemma lookup_remove_frame (k k' : bytes) (es : list (bytes * slice)) :
  k' <> k -> lookup k' (remove k es) = lookup k' es.
Proof.
  unfold lookup, remove. intros Hne.
  induction es as [|[k0 v0] es IH]; simpl; [reflexivity|].
  destruct (bytes_eqb k0 k) eqn:E; simpl.
  - apply bytes_eqb_eq in E. subst k0.
    rewrite (bytes_eqb_neq (a := k) (b := k')) by congruence. assumption.
  - destruct (bytes_eqb k0 k'); auto.
Qed.

Lemma root_lookup_removed (name : bytes) (r : list (bytes * bucket_id)) :
  root_lookup name (filter (fun e => negb (bytes_eqb (fst e) name)) r) = None.
Proof.
  unfold root_lookup. induction r as [|[n b] r IH]; simpl; [reflexivity|].
  destruct (bytes_eqb n name) eqn:E; simpl; [assumption|]. now rewrite E.
Qed.

Lemma root_lookup_frame (name n : bytes) (r : list (bytes * bucket_id)) :
  n <> name ->
  root_lookup n (filter (fun e => negb (bytes_eqb (fst e) name)) r)
  = root_lookup n r.
Proof.
  unfold root_lookup. intros Hne.
  induction r as [|[n0 b] r IH]; simpl; [reflexivity|].
  destruct (bytes_eqb n0 name) eqn:E; simpl.
  - apply bytes_eqb_eq in E. subst n0.
    rewrite (bytes_eqb_neq (a := name) (b := n)) by congruence. assumption.
  - destruct (bytes_eqb n0 n); auto.
Qed.

(** X1. An operation that fails changes nothing: when Put, Delete or
    NextSequence returns an error, whatever its cause, the transaction it
    returns is the one it was given; so does Truncate on a store whose
    bucket name is not empty. *)
Theorem failed_operation_changes_nothing (s : Store) (t : Tx) (k : bytes) (v : slice) :
  (forall t' e, Put s k v t = (t', Some e) -> t' = t) /\
  (forall t' e, Delete s k t = (t', Some e) -> t' = t) /\
  (forall t' e, NextSequence s t = (t', Fail e) -> t' = t) /\
  (name s <> [] -> forall t' e, Truncate s t = (t', Some e) -> t' = t).
Proof.
  repeat split.
  - intros t' e. store_op. unfold bolt.Put.
    destruct (ctx_Err (ctx s)); [congruence|].
    destruct (negb (tx_writable t)); [congruence|].
    destruct (len k =? 0)%Z; [congruence|].
    destruct (len k >? MaxKeySize)%Z; [congruence|].
    destruct (len (slice_bytes v) >? MaxValueSize)%Z; [congruence|discriminate].
  - intros t' e. store_op. unfold bolt.Delete, bolt.Get.
    destruct (ctx_Err (ctx s)); [congruence|].
    destruct (negb (tx_writable t)); [congruence|].
    destruct (lookup k (entries (deref t (bucket s)))) as [[b|]|];
      [discriminate|congruence|congruence].
  - intros t' e. store_op. unfold bolt.NextSequence.
    destruct (ctx_Err (ctx s)); [congruence|].
    destruct (negb (tx_writable t)); [congruence|discriminate].
  - intros Hname t' e. store_op. unfold bolt.DeleteBucket, bolt.CreateBucket.
    destruct (ctx_Err (ctx s)); [congruence|].
    destruct (negb (tx_writable t)) eqn:Hw; [congruence|].
    destruct (root_lookup (name s) (tx_root t)); [|congruence].
    cbn [tx_writable tx_root]. rewrite Hw.
    destruct (len (name s) =? 0)%Z eqn:El.
    + exfalso. apply Z.eqb_eq in El. unfold len in El.
      destruct (name s); [congruence|discriminate].
    + rewrite root_lookup_removed. discriminate.
Qed.

Lemma failed_operation_changes_nothing_witness :
  fst (Put (sample_store Background) [] (Some [x7a]) (sample_tx true)) = sample_tx true /\
  snd (Put (sample_store Background) [] (Some [x7a]) (sample_tx true))
  = Some ErrKeyRequired.
Proof.
  split; [|reflexivity].
  apply (proj1 (@failed_operation_changes_nothing
                  (sample_store Background) (sample_tx true) [] (Some [x7a]))
               _ ErrKeyRequired).
  reflexivity.
Defined.

(** X2. Put, Delete and NextSequence touch one key at most: after Put or
    Delete of [k], or after NextSequence, Get of any other key returns what
    it returned before, on every store. *)
Theorem operations_leave_other_keys (s : Store) (t : Tx) (k k' : bytes) (v : slice) :
  k' <> k ->
  Get s k' (fst (Put s k v t)) = Get s k' t /\
  Get s k' (fst (Delete s k t)) = Get s k' t /\
  Get s k' (fst (NextSequence s t)) = Get s k' t.
Proof.
  intros Hne.
  assert (H : forall o, (o = OpPut k v \/ o = OpDelete k \/ o = OpNextSequence) ->
                        Get s k' (step s o t) = Get s k' t).
  { intros o Ho. unfold Get, bolt.Get.
    destruct (ctx_Err (ctx s)); [reflexivity|].
    fold (contents s (step s o t)). fold (contents s t).
    destruct (step_contents s o t) as [E|[(k0 & v0 & Eo & E)|(k0 & Eo & E)]];
      rewrite E; [reflexivity| |].
    - assert (k0 = k) by (destruct Ho as [->|[->| ->]]; congruence). subst k0.
      now rewrite lookup_insert_frame.
    - assert (k0 = k) by (destruct Ho as [->|[->| ->]]; congruence). subst k0.
      now rewrite lookup_remove_frame. }
  split; [apply (H (OpPut k v)); auto|].
  split; [apply (H (OpDelete k)); auto|apply (H OpNextSequence); auto].
Qed.

Lemma operations_leave_other_keys_witness :
  let s := sample_store Background in
  let t := sample_tx true in
  [x05] <> [x03] /\
  Get s [x05] (fst (Put s [x03] (Some [x7a]) t)) = Ok [x63] /\
  Get s [x05] (fst (Delete s [x03] t)) = Ok [x63].
Proof.
  intros s t.
  assert (Hne : [x05] <> [x03]) by discriminate.
  pose proof (@operations_leave_other_keys s t [x03] [x05] (Some [x7a]) Hne)
    as (HP & HD & _).
  split; [exact Hne|]. split.
  - rewrite HP. reflexivity.
  - rewrite HD. reflexivity.
Defined.

(** Steps keep the transaction writable and the sequence below 2^64. *)
Lemma step_writable (s : Store) (o : op) (t : Tx) :
  tx_writable (step s o t) = tx_writable t.
Proof.
  destruct o as [k v|k|k|]; simpl; store_op;
    unfold bolt.Put, bolt.Delete, bolt.NextSequence, bolt.Get;
    destruct (ctx_Err (ctx s)); try reflexivity;
    destruct (negb (tx_writable t)); try reflexivity.
  - destruct (len k =? 0)%Z; [reflexivity|].
    destruct (len k >? MaxKeySize)%Z; [reflexivity|].
    destruct (len (slice_bytes v) >? MaxValueSize)%Z; reflexivity.
  - destruct (lookup k (entries (deref t (bucket s)))) as [[b|]|]; reflexivity.
Qed.

Lemma step_sequence (s : Store) (o : op) (t : Tx) :
  tx_writable t = true -> ctx_Err (ctx s) = None ->
  sequence (deref (step s o t) (bucket s))
  = match o with
    | OpNextSequence => ((sequence (deref t (bucket s)) + 1) mod 2 ^ 64)%N
    | _ => sequence (deref t (bucket s))
    end.
Proof.
  intros Hw Hl.
  destruct o as [k v|k|k|]; cbn [step]; store_op;
    unfold bolt.Put, bolt.Delete, bolt.NextSequence, bolt.Get;
    rewrite ?Hl, ?Hw; cbn [negb fst].
  - destruct (len k =? 0)%Z; [reflexivity|].
    destruct (len k >? MaxKeySize)%Z; [reflexivity|].
    destruct (len (slice_bytes v) >? MaxValueSize)%Z; [reflexivity|].
    cbn [fst]. now rewrite deref_store.
  - destruct (lookup k (entries (deref t (bucket s)))) as [[b|]|];
      [|reflexivity|reflexivity].
    cbn [fst]. now rewrite deref_store.
  - reflexivity.
  - now rewrite deref_store.
Qed.

Lemma run_sequence (s : Store) (ops : list op) (t : Tx) :
  tx_writable t = true -> ctx_Err (ctx s) = None ->
  tx_writable (run s ops t) = true /\
  (sequence (deref (run s ops t) (bucket s)) mod 2 ^ 64
   = (sequence (deref t (bucket s)) + count_NextSequence ops) mod 2 ^ 64)%N.
Proof.
  unfold run. revert t.
  induction ops as [|o ops IH]; intros t Hw Hl; cbn [fold_left].
  - split; [assumption|]. cbn [count_NextSequence]. now rewrite N.add_0_r.
  - assert (Hw' : tx_writable (step s o t) = true) by now rewrite step_writable.
    destruct (IH (step s o t) Hw' Hl) as [H1 H2]. split; [assumption|].
    rewrite H2, (step_sequence s o t Hw Hl).
    destruct o; cbn [count_NextSequence]; try reflexivity.
    rewrite N.Div0.add_mod_idemp_l. f_equal. lia.
Qed.

(** X3. NextSequence counts its own calls and nothing else: on a writable
    store with a live context whose counter is at [q], after any run of
    Put, Delete, Get and NextSequence operations with [j] calls of
    NextSequence among them, the next call returns [q + j + 1], as long as
    that is below 2^64. *)
Theorem NextSequence_counts_calls (s : Store) (t : Tx) (ops : list op) :
  tx_writable t = true ->
  ctx_Err (ctx s) = None ->
  (sequence (deref t (bucket s)) + count_NextSequence ops + 1 < 2 ^ 64)%N ->
  snd (NextSequence s (run s ops t))
  = Ok (sequence (deref t (bucket s)) + count_NextSequence ops + 1)%N.
Proof.
  intros Hw Hl Hlt.
  destruct (run_sequence s ops t Hw Hl) as [Hw' Hseq].
  unfold NextSequence, bolt.NextSequence, bolt.Writable.
  rewrite Hl, Hw'. cbn [negb snd]. f_equal.
  rewrite <- N.Div0.add_mod_idemp_l, Hseq, N.Div0.add_mod_idemp_l.
  apply N.mod_small. exact Hlt.
Qed.

Lemma NextSequence_counts_calls_witness :
  let s := sample_store Background in
  let t := sample_tx true in
  let ops := [OpNextSequence; OpPut [x02] (Some [x7a]); OpNextSequence; OpDelete [x01]] in
  tx_writable t = true /\ ctx_Err (ctx s) = None /\
  snd (NextSequence s (run s ops t)) = Ok 3%N.
Proof.
  intros s t ops.
  split; [reflexivity|]. split; [reflexivity|].
  apply (@NextSequence_counts_calls s t ops eq_refl eq_refl). reflexivity.
Defined.

(** X4. Truncate on a writable store with a live context, whose bucket is
    registered in the transaction under the store's non-empty name,
    succeeds and leaves under that name a new, empty bucket with its
    sequence at zero; every other name keeps its bucket, and every bucket
    other than the dropped one keeps its content. When the name is not
    registered, Truncate fails with bolt's [ErrBucketNotFound]. *)
Theorem Truncate_recreates_bucket (s : Store) (t : Tx) :
  tx_writable t = true ->
  ctx_Err (ctx s) = None ->
  name s <> [] ->
  (forall old, root_lookup (name s) (tx_root t) = Some old ->
   exists t',
     Truncate s t = (t', None) /\
     root_lookup (name s) (tx_root t') = Some (tx_next t) /\
     deref t' (tx_next t) = emptyBucket /\
     tx_writable t' = true /\
     (forall n, n <> name s ->
        root_lookup n (tx_root t') = root_lookup n (tx_root t)) /\
     (forall b, b <> tx_next t -> b <> old -> deref t' b = deref t b)) /\
  (root_lookup (name s) (tx_root t) = None ->
   Truncate s t = (t, Some ErrBucketNotFound)).
Proof.
  intros Hw Hl Hname.
  assert (El : (len (name s) =? 0)%Z = false).
  { apply Z.eqb_neq. unfold len. destruct (name s); [congruence|discriminate]. }
  unfold Truncate, bolt.Writable, bolt.DeleteBucket, bolt.CreateBucket.
  rewrite Hl, Hw. simpl. split.
  - intros old Hreg. rewrite Hreg.
    cbn [tx_writable tx_root tx_next tx_heap negb]. rewrite El.
    rewrite root_lookup_removed.
    eexists. split; [reflexivity|].
    cbn [tx_writable tx_root tx_next tx_heap]. unfold deref, root_lookup.
    cbn [tx_heap find fst snd option_map].
    rewrite bytes_eqb_refl, Nat.eqb_refl. cbn [option_map snd].
    repeat split; auto.
    + intros n Hn.
      rewrite (bytes_eqb_neq (a := name s) (b := n)) by congruence.
      apply (root_lookup_frame (tx_root t) Hn).
    + intros b' Hb Hold. apply Nat.eqb_neq in Hb, Hold. now rewrite Hb, Hold.
  - intros Hnone. now rewrite Hnone.
Qed.

Lemma Truncate_recreates_bucket_witness :
  let s := sample_store Background in
  let t := sample_tx true in
  tx_writable t = true /\ ctx_Err (ctx s) = None /\ name s <> [] /\
  exists t', Truncate s t = (t', None) /\ deref t' 1 = emptyBucket.
Proof.
  intros s t.
  assert (Hname : name s <> []) by discriminate.
  split; [reflexivity|]. split; [reflexivity|]. split; [exact Hname|].
  destruct (proj1 (@Truncate_recreates_bucket s t eq_refl eq_refl Hname)
              0 eq_refl)
    as (t' & HT & _ & HE & _).
  exists t'. split; assumption.
Defined.

(** X5. The order of a bucket is an invariant of the store: from an empty
    bucket, after every run of Put, Delete, Get and NextSequence, whether
    each succeeded or failed, the keys of the bucket increase strictly, so
    no key occurs twice. *)
Theorem keys_stay_ordered (s : Store) (t : Tx) (ops : list op) :
  contents s t = [] ->
  sorted (contents s (run s ops t)) = true.
Proof.
  intros Hempty. apply run_sorted. now rewrite Hempty.
Qed.

Lemma keys_stay_ordered_witness :
  let s := mkStore 0 [x74] Background in
  let t := mkTx true (fun _ => emptyBucket) 1 [([x74], 0)] in
  contents s t = [] /\
  contents s (run s [OpPut [x05] (Some [x61]); OpPut [x01] (Some [x62]); OpPut [x05] (Some [x63]);
                     OpPut [x03] (Some [x64]); OpDelete [x01]] t)
  = [([x03], Some [x64]); ([x05], Some [x63])] /\
  sorted (contents s (run s [OpPut [x05] (Some [x61]); OpPut [x01] (Some [x62]);
                             OpPut [x05] (Some [x63]); OpPut [x03] (Some [x64]);
                             OpDelete [x01]] t)) = true.
Proof.
  intros s t. split; [reflexivity|]. split; [reflexivity|].
  apply (@keys_stay_ordered s t). reflexivity.
Defined.

Lemma insert_insert (k : bytes) (v v' : slice) (es : list (bytes * slice)) :
  insert k v (insert k v' es) = insert k v es.
Proof.
  induction es as [|[k0 v0] es IH]; simpl.
  - now rewrite Compare_refl.
  - destruct (Compare k k0) eqn:E; simpl.
    + now rewrite Compare_refl.
    + now rewrite Compare_refl.
    + rewrite E. now rewrite IH.
Qed.

Lemma remove_insert (k : bytes) (v : slice) (es : list (bytes * slice)) :
  lookup k es = None -> remove k (insert k v es) = es.
Proof.
  unfold lookup, remove.
  induction es as [|[k0 v0] es IH]; simpl.
  - now rewrite bytes_eqb_refl.
  - destruct (bytes_eqb k0 k) eqn:E0; [discriminate|]. intros H.
    assert (Hrest : filter (fun e => negb (bytes_eqb (fst e) k)) es = es).
    { clear IH. induction es as [|[k1 v1] es IHes]; simpl; [reflexivity|].
      simpl in H. destruct (bytes_eqb k1 k) eqn:E1; [discriminate|].
      simpl. f_equal. now apply IHes. }
    destruct (Compare k k0) eqn:E; simpl.
    + apply Compare_eq in E. subst k0. rewrite bytes_eqb_refl in E0.
      discriminate.
    + rewrite bytes_eqb_refl, E0. simpl. now rewrite Hrest.
    + rewrite E0. simpl. f_equal. now apply IH.
Qed.

(** What a successful Put tells about the store and the pair. *)
Lemma Put_success (s : Store) (t t' : Tx) (k : bytes) (v : slice) :
  Put s k v t = (t', None) ->
  tx_writable t = true /\ ctx_Err (ctx s) = None /\
  (0 < len k <= MaxKeySize)%Z /\ (len (slice_bytes v) <= MaxValueSize)%Z.
Proof.
  store_op. unfold bolt.Put.
  destruct (ctx_Err (ctx s)); [discriminate|].
  destruct (tx_writable t); [|discriminate]. cbn [negb].
  destruct (len k =? 0)%Z eqn:E0; [discriminate|].
  destruct (len k >? MaxKeySize)%Z eqn:E1; [discriminate|].
  destruct (len (slice_bytes v) >? MaxValueSize)%Z eqn:E2; [discriminate|].
  intros _. apply Z.eqb_neq in E0.
  rewrite Z.gtb_ltb in E1, E2. apply Z.ltb_ge in E1, E2.
  unfold len in *. repeat split; auto; lia.
Qed.

Lemma lookup_not_held (k : bytes) (es : list (bytes * slice)) :
  (forall e, In e es -> fst e <> k) -> lookup k es = None.
Proof.
  unfold lookup. induction es as [|e es IH]; intros H; simpl; [reflexivity|].
  rewrite (bytes_eqb_neq (H e (or_introl eq_refl))).
  apply IH. intros e' He'. apply H. now right.
Qed.

(** X17. Put and Delete compose as on a map, for values that are not
    nil. Two Puts on one key that both succeed leave the entries of the
    bucket as the second Put alone leaves them: the last write wins and the
    key is held once. A Put of a value that is not nil, which succeeds on a
    key the bucket did not hold, followed by Delete of that key, succeeds
    and leaves the entries of the bucket as they were before the Put. After
    a Put of the nil slice that succeeded, Delete of the key fails with
    [ErrKeyNotFound] and the key stays in the bucket. *)
Theorem Put_Delete_compose (s : Store) (t t1 : Tx) (k : bytes) (v : slice) :
  Put s k v t = (t1, None) ->
  (forall v2 t2, Put s k v2 t1 = (t2, None) ->
     exists t2', Put s k v2 t = (t2', None) /\
                 contents s t2 = contents s t2') /\
  (v <> None ->
   (forall e, In e (contents s t) -> fst e <> k) ->
   exists t2, Delete s k t1 = (t2, None) /\ contents s t2 = contents s t) /\
  (v = None ->
   Delete s k t1 = (t1, Some ErrKeyNotFound) /\ In (k, None) (contents s t1)).
Proof.
  intros HP. pose proof (Put_contents s t k v HP) as [Hc Hl].
  pose proof (Put_success s t k v HP) as (Hwt & _ & Hk & _).
  assert (Hw : tx_writable t1 = true).
  { change t1 with (fst (t1, @None error)). rewrite <- HP.
    change (fst (Put s k v t)) with (step s (OpPut k v) t).
    now rewrite step_writable. }
  split; [|split].
  - intros v2 t2 HP2.
    pose proof (Put_success s t1 k v2 HP2) as (_ & _ & _ & Hv2).
    destruct (Put_succeeds s t k v2 Hwt Hl Hk Hv2) as (t2' & HP' & Hc').
    exists t2'. split; [exact HP'|].
    apply Put_contents in HP2 as [Hc2 _].
    now rewrite Hc2, Hc, insert_insert, Hc'.
  - intros Hv Habs. apply lookup_not_held in Habs.
    unfold Delete, bolt.Writable, bolt.Get, bolt.Delete. rewrite Hl, Hw.
    cbn [negb]. fold (contents s t1). rewrite Hc, lookup_insert.
    destruct v as [b|]; [|congruence].
    eexists. split; [reflexivity|].
    rewrite contents_store. cbn [entries]. now apply remove_insert.
  - intros ->. split.
    + unfold Delete, bolt.Writable, bolt.Get. rewrite Hl, Hw.
      cbn [negb]. fold (contents s t1). now rewrite Hc, lookup_insert.
    + rewrite Hc. clear. induction (contents s t) as [|[k0 v0] es IH]; simpl.
      * now left.
      * destruct (Compare k k0); simpl; auto.
Qed.

Lemma Put_Delete_compose_witness :
  let s := sample_store Background in
  let t := sample_tx true in
  let t1 := fst (Put s [x04] (Some [x7a]) t) in
  Put s [x04] (Some [x7a]) t = (t1, None) /\
  exists t2, Delete s [x04] t1 = (t2, None) /\ contents s t2 = contents s t.
Proof.
  intros s t t1.
  assert (HP : Put s [x04] (Some [x7a]) t = (t1, None)) by reflexivity.
  split; [exact HP|].
  apply (proj1 (proj2 (@Put_Delete_compose s t t1 [x04] (Some [x7a]) HP))).
  - discriminate.
  - intros e [<-|[<-|[<-|[<-|[]]]]]; discriminate.
Defined.

End store_more.

(* ================================================================= *)
(** ** Further properties of the iterator *)

Module iterator_more.

Import bolt boltengine spec usage bolt_facts iterator_facts.

(** *** Lists cut at a position *)

Lemma skipn_nth_error (A : Type) (l : list A) (i : nat) (x : A) :
  nth_error l i = Some x -> skipn i l = x :: skipn (S i) l.
Proof.
  revert i; induction l as [|a l IH]; intros [|i] H; try discriminate.
  - now inversion H.
  - simpl in H. rewrite skipn_cons. now apply IH.
Qed.

Lemma firstn_nth_error (A : Type) (l : list A) (i : nat) (x : A) :
  nth_error l i = Some x -> firstn (S i) l = firstn i l ++ [x].
Proof.
  revert i; induction l as [|a l IH]; intros [|i] H; try discriminate.
  - now inversion H.
  - simpl in H. rewrite firstn_cons, (IH i H). reflexivity.
Qed.

Lemma filter_all (A : Type) (f : A -> bool) (l : list A) :
  (forall x, In x l -> f x = true) -> filter f l = l.
Proof.
  induction l as [|a l IH]; intros H; simpl; [reflexivity|].
  rewrite (H a (or_introl eq_refl)). f_equal. apply IH. intros x Hx.
  apply H. now right.
Qed.

Lemma filter_none (A : Type) (f : A -> bool) (l : list A) :
  (forall x, In x l -> f x = false) -> filter f l = [].
Proof.
  induction l as [|a l IH]; intros H; simpl; [reflexivity|].
  rewrite (H a (or_introl eq_refl)). apply IH. intros x Hx.
  apply H. now right.
Qed.

(** The entries not above the pivot are those before a position that
    separates them from the entries above it. *)
Lemma filter_leb_firstn (pivot : bytes) (es : list (bytes * slice)) :
  forall n,
    (forall j e, j < n -> nth_error es j = Some e -> Compare (fst e) pivot <> Gt) ->
    (forall j e, n <= j -> nth_error es j = Some e -> Compare (fst e) pivot = Gt) ->
    filter (fun e => leb (fst e) pivot) es = firstn n es.
Proof.
  induction es as [|a es IH]; intros n Hlow Hhigh.
  - now rewrite firstn_nil.
  - destruct n as [|n].
    + apply filter_none. intros x Hx. apply In_nth_error in Hx as [j Hj].
      unfold leb. rewrite (Hhigh j x); auto. lia.
    + assert (Ha : Compare (fst a) pivot <> Gt)
        by (apply (Hlow 0 a); [lia|reflexivity]).
      assert (Hrec : filter (fun e => leb (fst e) pivot) es = firstn n es).
      { apply IH.
        - intros j e Hj He. apply (Hlow (S j) e); [lia|exact He].
        - intros j e Hj He. apply (Hhigh (S j) e); [lia|exact He]. }
      simpl. unfold leb at 1.
      destruct (Compare (fst a) pivot); [| |congruence]; now rewrite Hrec.
Qed.

(** In a bucket that satisfies the invariant, the entries from the landing
    point of [Cursor.Seek] on are those not below the pivot. *)
Lemma skipn_first_ge (pivot : bytes) (es : list (bytes * slice)) :
  sorted es = true ->
  skipn (first_ge pivot es) es = filter (fun e => geb (fst e) pivot) es.
Proof.
  induction es as [|[k v] es IH]; intros Hs; [reflexivity|].
  simpl in Hs. apply andb_prop in Hs as [Hk Hs].
  cbn [first_ge filter fst]. unfold geb at 1.
  destruct (Compare k pivot) eqn:E.
  - cbn [skipn]. f_equal. symmetry. apply filter_all. intros x Hx.
    rewrite forallb_forall in Hk. specialize (Hk x Hx). unfold ltb in Hk.
    cbn [fst] in Hk. unfold geb.
    destruct (Compare (fst x) pivot) eqn:Ex; try reflexivity.
    destruct (Compare k (fst x)) eqn:Ekx; try discriminate.
    rewrite (Compare_lt_trans _ _ _ Ekx Ex) in E. discriminate.
  - rewrite skipn_cons. now apply IH.
  - cbn [skipn]. f_equal. symmetry. apply filter_all. intros x Hx.
    rewrite forallb_forall in Hk. specialize (Hk x Hx). unfold ltb in Hk.
    cbn [fst] in Hk. unfold geb.
    destruct (Compare (fst x) pivot) eqn:Ex; try reflexivity.
    destruct (Compare k (fst x)) eqn:Ekx; try discriminate.
    rewrite (Compare_lt_trans _ _ _ Ekx Ex) in E. discriminate.
Qed.

(** *** The loop of a caller *)

Lemma drain_invalid (fuel : nat) (cur : Cursor) (d : bool) (e : option error)
  (cx : Context) (t : Tx) :
  drain fuel (mkIterator cur d None e cx) t = [].
Proof. destruct fuel; [reflexivity|]. simpl. now destruct e. Qed.

Lemma drain_forward (t : Tx) (b : bucket_id) (cx : Context) (fuel : nat) :
  forall i,
    List.length (entries (deref t b)) - i < fuel ->
    drain fuel
      (mkIterator (mkCursor b (At i)) false
                  (nth_error (entries (deref t b)) i) None cx) t
    = skipn i (entries (deref t b)).
Proof.
  induction fuel as [|fuel IH]; intros i Hi; [lia|].
  cbn [drain]. unfold Valid, Item. cbn [item err].
  destruct (nth_error (entries (deref t b)) i) as [e|] eqn:E.
  - rewrite (skipn_nth_error _ _ E). f_equal.
    unfold Next. cbn [reverse c err ictx]. unfold bolt.Next.
    cbn [c_pos c_bucket].
    apply IH.
    assert (i < List.length (entries (deref t b)))
      by (apply nth_error_Some; congruence).
    lia.
  - apply nth_error_None in E. now rewrite skipn_all2.
Qed.

Lemma drain_backward (t : Tx) (b : bucket_id) (cx : Context) (fuel : nat) :
  forall i e,
    nth_error (entries (deref t b)) i = Some e ->
    i < fuel ->
    drain fuel (mkIterator (mkCursor b (At i)) true (Some e) None cx) t
    = rev (firstn (S i) (entries (deref t b))).
Proof.
  induction fuel as [|fuel IH]; intros i e E Hi; [lia|].
  cbn [drain]. unfold Valid, Item. cbn [item err].
  rewrite (firstn_nth_error _ _ E), rev_unit. f_equal.
  unfold Next. cbn [reverse c err ictx]. unfold bolt.Prev.
  cbn [c_pos c_bucket].
  destruct i as [|j].
  - now rewrite drain_invalid.
  - destruct (nth_error (entries (deref t b)) j) as [ej|] eqn:Ej.
    + apply IH; [exact Ej|lia].
    + exfalso. apply nth_error_None in Ej.
      assert (S j < List.length (entries (deref t b)))
        by (apply nth_error_Some; congruence).
      lia.
Qed.

(** *** Where Seek lands *)

Lemma Seek_forward_landing (s : Store) (t : Tx) (pivot : bytes) :
  ctx_Err (ctx s) = None ->
  Seek (Iterator s (mkOptions false)) pivot t
  = Some (mkIterator
            (mkCursor (bucket s) (At (first_ge pivot (contents s t))))
            false
            (nth_error (contents s t) (first_ge pivot (contents s t)))
            None (ctx s)).
Proof.
  intros Hl. unfold Seek, Iterator. cbn [ictx reverse c err negb Reverse].
  rewrite Hl. reflexivity.
Qed.

Lemma Seek_backward_landing (s : Store) (t : Tx) (pivot : bytes) :
  ctx_Err (ctx s) = None ->
  pivot <> [] ->
  Seek (reverse_iterator s) pivot t
  = Some
      match nth_error (contents s t) (first_ge pivot (contents s t)) with
      | None =>
          mkIterator (mkCursor (bucket s) (At (first_ge pivot (contents s t))))
                     true None None (ctx s)
      | Some e =>
          match Compare (fst e) pivot with
          | Gt =>
              match first_ge pivot (contents s t) with
              | 0 => mkIterator (mkCursor (bucket s) Unset) true None None (ctx s)
              | S j =>
                  mkIterator (mkCursor (bucket s) (At j)) true
                             (nth_error (contents s t) j) None (ctx s)
              end
          | _ =>
              mkIterator
                (mkCursor (bucket s) (At (first_ge pivot (contents s t))))
                true (Some e) None (ctx s)
          end
      end.
Proof.
  intros Hl Hp.
  unfold Seek, reverse_iterator, Iterator.
  cbn [ictx reverse c err negb Reverse]. rewrite Hl.
  destruct pivot as [|p pivot]; [congruence|].
  cbn [List.length Nat.eqb].
  set (pv := p :: pivot).
  unfold bolt.Seek, NewCursor. cbn [c_bucket]. fold (contents s t).
  destruct (first_ge_spec pv (contents s t)) as [Hbefore _].
  destruct (nth_error (contents s t) (first_ge pv (contents s t)))
    as [e|] eqn:Ei; [|reflexivity].
  destruct (Compare (fst e) pv) eqn:Ecmp.
  - rewrite loop_stop by (destruct e; cbn [item_key fst] in *; congruence).
    reflexivity.
  - rewrite loop_stop by (destruct e; cbn [item_key fst] in *; congruence).
    reflexivity.
  - unfold seek_fuel.
    rewrite loop_step by (destruct e; cbn [item_key fst] in *; congruence).
    unfold Prev. cbn [c_pos c_bucket fst snd]. fold (contents s t).
    destruct (first_ge pv (contents s t)) as [|j] eqn:Eidx; cbn [fst snd].
    + rewrite loop_stop by (cbn [item_key]; discriminate). reflexivity.
    + rewrite loop_stop; [reflexivity|].
      destruct (nth_error (contents s t) j) as [[kj vj]|] eqn:Ej;
        cbn [item_key]; [|discriminate].
      assert (Hj : Compare (fst (kj, vj)) pv = Lt)
        by (apply (Hbefore j (kj, vj)); [lia|exact Ej]).
      cbn [fst] in Hj. rewrite Hj. discriminate.
Qed.

(** *** Termination and cost of Seek *)

(** After [Cursor.Seek] at a non-empty pivot the loop of Seek steps back
    at most once. *)
Lemma walk_back_once (t : Tx) (cur0 : Cursor) (pivot : bytes) (fuel : nat) :
  pivot <> [] ->
  exists r,
    prev_while_greater 1 t pivot (fst (bolt.Seek t cur0 pivot))
                       (snd (bolt.Seek t cur0 pivot)) = Some r /\
    prev_while_greater (S fuel) t pivot (fst (bolt.Seek t cur0 pivot))
                       (snd (bolt.Seek t cur0 pivot)) = Some r.
Proof.
  intros Hp. unfold bolt.Seek. cbn [fst snd].
  set (es := entries (deref t (c_bucket cur0))).
  destruct (first_ge_spec pivot es) as [Hbefore _].
  destruct (nth_error es (first_ge pivot es)) as [e|] eqn:Ei.
  2:{ eexists. split; apply loop_stop; apply Compare_nil_not_gt. }
  destruct (Compare (fst e) pivot) eqn:Ecmp.
  - eexists. split; apply loop_stop;
      destruct e; cbn [item_key fst] in *; congruence.
  - eexists. split; apply loop_stop;
      destruct e; cbn [item_key fst] in *; congruence.
  - assert (Hgt : Compare (item_key (Some e)) pivot = Gt)
      by (destruct e; cbn [item_key fst] in *; congruence).
    rewrite !loop_step by exact Hgt.
    unfold Prev. cbn [c_pos c_bucket]. fold es.
    assert (Hstop : forall j,
               first_ge pivot es = S j ->
               Compare (item_key (nth_error es j)) pivot <> Gt).
    { intros j Hj. destruct (nth_error es j) as [[kj vj]|] eqn:Ej;
        cbn [item_key]; [|apply Compare_nil_not_gt].
      assert (H : Compare (fst (kj, vj)) pivot = Lt)
        by (apply (Hbefore j (kj, vj)); [lia|exact Ej]).
      cbn [fst] in H. congruence. }
    destruct (first_ge pivot es) as [|j]; cbn [fst snd].
    + eexists. split; apply loop_stop; apply Compare_nil_not_gt.
    + eexists. split; apply loop_stop; now apply Hstop.
Qed.

(** X6. Seek returns for every iterator, every pivot and every bucket,
    in either direction: its loop ends. In reverse mode the loop steps
    back at most once after the forward seek: one iteration gives the
    result that any greater number of iterations gives. *)
Theorem Seek_returns (it : iterator) (pivot : bytes) (t : Tx) :
  (exists it', Seek it pivot t = Some it') /\
  (pivot <> [] ->
   forall fuel,
   exists r,
     prev_while_greater 1 t pivot (fst (bolt.Seek t (c it) pivot))
                        (snd (bolt.Seek t (c it) pivot)) = Some r /\
     prev_while_greater (S fuel) t pivot (fst (bolt.Seek t (c it) pivot))
                        (snd (bolt.Seek t (c it) pivot)) = Some r).
Proof.
  split; [apply Seek_total|].
  intros Hp fuel. now apply walk_back_once.
Qed.

Lemma Seek_returns_witness :
  [x06] <> ([] : bytes) /\
  exists r,
    prev_while_greater 1 (sample_tx true) [x06]
      (fst (bolt.Seek (sample_tx true) (NewCursor 0) [x06]))
      (snd (bolt.Seek (sample_tx true) (NewCursor 0) [x06])) = Some r /\
    snd r = Some ([x05], Some [x63]).
Proof.
  assert (Hp : [x06] <> ([] : bytes)) by discriminate.
  split; [exact Hp|].
  destruct (proj2 (@Seek_returns (reverse_iterator (sample_store Background))
                     [x06] (sample_tx true)) Hp 0) as (r & H1 & _).
  exists r. split; [exact H1|].
  vm_compute in H1. inversion H1. reflexivity.
Defined.

(** *** An iterator with an error *)

Lemma Next_keeps_error (it : iterator) (t : Tx) : err (Next it t) = err it.
Proof.
  unfold Next. destruct (reverse it);
    [destruct (Prev t (c it))|destruct (bolt.Next t (c it))]; reflexivity.
Qed.

(** X7. Once an iterator carries an error it stays invalid: after any
    number of calls of Next it is still invalid and Err still reports the
    same error. So it is after a Seek that met a cancelled context. *)
Theorem errored_iterator_stays_invalid
  (it : iterator) (t : Tx) (e : error) (n : nat) :
  Err it = Some e ->
  Valid (Next_times n it t) = false /\ Err (Next_times n it t) = Some e.
Proof.
  revert it. induction n as [|n IH]; intros it He; cbn [Next_times].
  - split; [|exact He]. unfold Valid. unfold Err in He. rewrite He.
    now destruct (item it).
  - apply IH. unfold Err. rewrite Next_keeps_error. exact He.
Qed.

Lemma errored_iterator_stays_invalid_witness :
  let s := sample_store (mkContext (Some DeadlineExceeded)) in
  let it := mkIterator (NewCursor 0) false None (Some DeadlineExceeded) (ctx s) in
  Seek (Iterator s (mkOptions false)) [x03] (sample_tx true) = Some it /\
  Err it = Some DeadlineExceeded /\
  Valid (Next_times 3 it (sample_tx true)) = false.
Proof.
  intros s it. split; [reflexivity|]. split; [reflexivity|].
  apply (@errored_iterator_stays_invalid it (sample_tx true)
           DeadlineExceeded 3 eq_refl).
Defined.

(** *** Forward Seek *)

(** X8. On a store whose bucket satisfies the invariant and whose context
    is live, Seek on a forward iterator returns without error on the entry
    with the least key greater than or equal to the pivot, and on no entry
    exactly when every key of the store is below the pivot. *)
Theorem Seek_forward (s : Store) (t : Tx) (pivot : bytes) :
  sorted (contents s t) = true ->
  ctx_Err (ctx s) = None ->
  exists it',
    Seek (Iterator s (mkOptions false)) pivot t = Some it' /\
    Err it' = None /\
    (forall e, Item it' = Some e ->
       In e (contents s t) /\ Compare (fst e) pivot <> Lt /\
       forall e', In e' (contents s t) -> Compare (fst e') pivot <> Lt ->
                  Compare (fst e) (fst e') <> Gt) /\
    (Item it' = None <->
     forall e, In e (contents s t) -> Compare (fst e) pivot = Lt).
Proof.
  intros Hs Hl. rewrite (Seek_forward_landing s t pivot Hl).
  eexists. split; [reflexivity|]. split; [reflexivity|].
  unfold Item. cbn [item].
  destruct (first_ge_spec pivot (contents s t)) as [Hbefore Hat].
  set (i := first_ge pivot (contents s t)) in *.
  split.
  - intros e Ei. rewrite Ei in Hat.
    split; [eapply nth_error_In; eauto|]. split; [exact Hat|].
    intros e' Hin' Hge'. apply In_nth_error in Hin' as [m Hm].
    destruct (Nat.lt_trichotomy m i) as [Hlt|[->|Hgt]].
    + exfalso. apply Hge'. apply (Hbefore m e'); auto.
    + assert (e' = e) by congruence. subst. rewrite Compare_refl. discriminate.
    + rewrite (sorted_nth (contents s t) Hs Hgt Ei Hm). discriminate.
  - split.
    + intros Hnone e Hin. rewrite Hnone in Hat.
      apply In_nth_error in Hin as [m Hm].
      apply (Hbefore m e); auto. rewrite Hat.
      apply nth_error_Some. congruence.
    + intros Hall.
      destruct (nth_error (contents s t) i) as [e|] eqn:Ei; [|reflexivity].
      exfalso. apply Hat. apply Hall. eapply nth_error_In; eauto.
Qed.

Lemma Seek_forward_witness :
  let s := sample_store Background in
  let t := sample_tx true in
  sorted (contents s t) = true /\ ctx_Err (ctx s) = None /\
  exists it',
    Seek (Iterator s (mkOptions false)) [x04] t = Some it' /\
    Item it' = Some ([x05], Some [x63]).
Proof.
  intros s t. split; [reflexivity|]. split; [reflexivity|].
  destruct (@Seek_forward s t [x04] eq_refl eq_refl) as (it' & HS & _).
  exists it'. split; [exact HS|].
  vm_compute in HS. inversion HS. reflexivity.
Defined.

(** *** Scans *)

(** X9. On a store with a live context, the loop of a caller started at
    the empty pivot visits every entry of the store exactly once: in key
    order with a forward iterator, in the opposite order with a reverse
    iterator. *)
Theorem full_scan (s : Store) (t : Tx) :
  ctx_Err (ctx s) = None ->
  scan s false [] t = Some (contents s t) /\
  scan s true [] t = Some (rev (contents s t)).
Proof.
  intros Hl. unfold scan. split.
  - rewrite (Seek_forward_landing s t [] Hl).
    assert (E0 : first_ge [] (contents s t) = 0).
    { destruct (contents s t) as [|[k v] es]; [reflexivity|].
      simpl. destruct k; reflexivity. }
    rewrite E0. unfold contents.
    rewrite drain_forward by lia. reflexivity.
  - unfold Seek, Iterator. cbn [ictx reverse c err negb Reverse].
    rewrite Hl. cbn [List.length Nat.eqb].
    unfold Last, NewCursor. cbn [c_bucket]. fold (contents s t).
    destruct (List.length (contents s t)) as [|n] eqn:En.
    + apply length_zero_iff_nil in En. rewrite En.
      now rewrite drain_invalid.
    + destruct (nth_error (contents s t) n) as [e|] eqn:E.
      * unfold contents in *. rewrite (drain_backward t (bucket s) _ E) by lia.
        rewrite firstn_all2 by lia. reflexivity.
      * exfalso. apply nth_error_None in E. lia.
Qed.

Lemma full_scan_witness :
  let s := sample_store Background in
  let t := sample_tx false in
  ctx_Err (ctx s) = None /\
  scan s true [] t
  = Some [([x07], Some [x64]); ([x05], Some [x63]); ([x03], Some [x62]); ([x01], Some [x61])].
Proof.
  intros s t. split; [reflexivity|].
  rewrite (proj2 (@full_scan s t eq_refl)). reflexivity.
Defined.

(** X10. On a store whose bucket satisfies the invariant and whose context
    is live, the loop of a caller started at a pivot visits, with a forward
    iterator, exactly the entries whose key is greater than or equal to the
    pivot, in key order. With a reverse iterator and a non-empty pivot it
    visits exactly the entries whose key is less than or equal to the
    pivot, in the opposite order, provided some key of the store is greater
    than or equal to the pivot; when the pivot is above every key it visits
    nothing. *)
Theorem range_scan (s : Store) (t : Tx) (pivot : bytes) :
  sorted (contents s t) = true ->
  ctx_Err (ctx s) = None ->
  scan s false pivot t
  = Some (filter (fun e => geb (fst e) pivot) (contents s t)) /\
  (pivot <> [] ->
   ((exists e, In e (contents s t) /\ Compare (fst e) pivot <> Lt) ->
    scan s true pivot t
    = Some (rev (filter (fun e => leb (fst e) pivot) (contents s t)))) /\
   ((forall e, In e (contents s t) -> Compare (fst e) pivot = Lt) ->
    scan s true pivot t = Some [])).
Proof.
  intros Hs Hl. unfold scan. split.
  - rewrite (Seek_forward_landing s t pivot Hl). unfold contents.
    rewrite drain_forward by lia. f_equal. now apply skipn_first_ge.
  - intros Hp. fold (reverse_iterator s).
    rewrite (Seek_backward_landing s t Hl Hp).
    destruct (first_ge_spec pivot (contents s t)) as [Hbefore Hat].
    set (i := first_ge pivot (contents s t)) in *.
    destruct (nth_error (contents s t) i) as [e|] eqn:Ei.
    2:{ split; [|intros _; now rewrite drain_invalid].
        intros (e & Hin & Hge). exfalso. apply Hge.
        apply In_nth_error in Hin as [m Hm].
        apply (Hbefore m e); auto. rewrite Hat.
        apply nth_error_Some. congruence. }
    split.
    2:{ intros Hall. exfalso. apply Hat. apply Hall.
        eapply nth_error_In; eauto. }
    intros _.
    assert (Hlow : forall j x, j < i -> nth_error (contents s t) j = Some x ->
                               Compare (fst x) pivot <> Gt).
    { intros j x Hj Hx. rewrite (Hbefore j x Hj Hx). discriminate. }
    destruct (Compare (fst e) pivot) eqn:Ecmp; [|congruence|].
    + (* the pivot is a key *)
      unfold contents in *.
      rewrite (drain_backward t (bucket s) _ Ei)
        by (assert (i < List.length (entries (deref t (bucket s))))
              by (apply nth_error_Some; congruence); lia).
      do 2 f_equal. symmetry. apply filter_leb_firstn.
      * intros j x Hj Hx. destruct (Nat.eq_dec j i) as [->|Hne].
        -- assert (x = e) by congruence. subst. congruence.
        -- apply (Hlow j x); [lia|exact Hx].
      * intros j x Hj Hx.
        assert (L : Compare (fst e) (fst x) = Lt)
          by (apply (sorted_nth _ Hs (i := i) (j := j)); auto).
        apply Compare_eq in Ecmp. rewrite <- Ecmp.
        now apply Compare_lt_gt.
    + (* the landing key is above the pivot *)
      destruct i as [|j] eqn:Eidx.
      * rewrite drain_invalid. do 2 f_equal. symmetry.
        rewrite (filter_leb_firstn pivot (contents s t) (n := 0));
          [reflexivity| |].
        -- intros j x Hj. lia.
        -- intros j x Hj Hx.
           apply (@above_landing pivot (contents s t) 0 j e x); auto.
      * destruct (nth_error (contents s t) j) as [ej|] eqn:Ej.
        2:{ exfalso. apply nth_error_None in Ej.
            assert (S j < List.length (contents s t))
              by (apply nth_error_Some; congruence). lia. }
        unfold contents in *.
        rewrite (drain_backward t (bucket s) _ Ej)
          by (assert (S j < List.length (entries (deref t (bucket s))))
                by (apply nth_error_Some; congruence); lia).
        do 2 f_equal. symmetry. apply filter_leb_firstn.
        -- exact Hlow.
        -- intros m x Hm Hx.
           apply (@above_landing pivot (entries (deref t (bucket s)))
                                 (S j) m e x); auto.
Qed.

Lemma range_scan_witness :
  let s := sample_store Background in
  let t := sample_tx true in
  sorted (contents s t) = true /\ ctx_Err (ctx s) = None /\
  scan s false [x04] t = Some [([x05], Some [x63]); ([x07], Some [x64])] /\
  scan s true [x04] t = Some [([x03], Some [x62]); ([x01], Some [x61])] /\
  scan s true [x08] t = Some [].
Proof.
  intros s t.
  destruct (@range_scan s t [x04] eq_refl eq_refl) as [Hf Hb].
  destruct (@range_scan s t [x08] eq_refl eq_refl) as [_ Hb8].
  split; [reflexivity|]. split; [reflexivity|].
  split; [rewrite Hf; reflexivity|].
  split.
  - rewrite (proj1 (Hb ltac:(discriminate))); [reflexivity|].
    exists ([x05], Some [x63]). split; [simpl; tauto|vm_compute; discriminate].
  - apply (proj2 (Hb8 ltac:(discriminate))).
    intros e [<-|[<-|[<-|[<-|[]]]]]; reflexivity.
Defined.

End iterator_more.

(* ================================================================= *)
(** ** Further properties of the projection *)

Module projection_more.

Import query samples projection_facts.

Section Projection.

Variable Value : Type.
Variable ValueType : Type.
Variable Int64Value : ValueType.
Variable DecodeValue : ValueType -> bytes -> result Value.
Variable Path_GetValue : ValuePath -> option (Document Value) -> result Value.
Variable Path_String : ValuePath -> string.
Variable Transaction : Type.
Variable NamedValue : Type.

Local Abbreviation ResultField := (ResultField Value Transaction NamedValue).
Local Abbreviation documentMask := (documentMask Value Transaction NamedValue).
Local Abbreviation mask_Iterate :=
  (@mask_Iterate Value ValueType Int64Value DecodeValue Path_GetValue
                 Path_String Transaction NamedValue).
Local Abbreviation Iterate_loop :=
  (@Iterate_loop Value ValueType Int64Value DecodeValue Path_GetValue
                 Path_String Transaction NamedValue).

Lemma Iterate_loop_app (stack : EvalStack Value Transaction NamedValue)
  (S : Type) (fn : emit Value S) (rfs1 rfs2 : list ResultField) (st : S) :
  Iterate_loop stack fn (rfs1 ++ rfs2) st
  = match Iterate_loop stack fn rfs1 st with
    | (st', Some e) => (st', Some e)
    | (st', None) => Iterate_loop stack fn rfs2 st'
    end.
Proof.
  revert st. induction rfs1 as [|rf rfs1 IH]; intros st; simpl.
  - reflexivity.
  - destruct (ResultField_Iterate _ _ _ _ rf stack fn st) as [st' [e|]];
      [reflexivity|apply IH].
Qed.

(** X11. The projection of a document takes the result fields from left
    to right and stops at the first one that fails: the projection on the
    fields [rfs1 ++ rfs2] is the projection on [rfs1] followed, when that
    returned no error, by the projection on [rfs2] from the state reached;
    when it returned an error, that error is the result, the pairs emitted
    so far stay emitted and no field of [rfs2] is evaluated. *)
Theorem mask_Iterate_left_to_right
  (config : option TableConfig) (raw : Document Value)
  (rfs1 rfs2 : list ResultField) (S : Type) (fn : emit Value S) (st : S) :
  mask_Iterate (mkMask config raw (rfs1 ++ rfs2)) fn st
  = match mask_Iterate (mkMask config raw rfs1) fn st with
    | (st', Some e) => (st', Some e)
    | (st', None) => mask_Iterate (mkMask config raw rfs2) fn st'
    end.
Proof. unfold query.mask_Iterate. cbn [resultFields r cfg]. apply Iterate_loop_app. Qed.

Lemma GetByField_loop_names (raw : Document Value) (name : string)
  (rfs1 rfs2 : list ResultField) :
  map (@Name _ _ _) rfs1 = map (@Name _ _ _) rfs2 ->
  GetByField_loop raw name rfs1 = GetByField_loop raw name rfs2.
Proof.
  revert rfs2. induction rfs1 as [|a rfs1 IH]; intros [|b rfs2] H;
    try discriminate; [reflexivity|].
  simpl in H. inversion H as [[Hn Ht]]. simpl. rewrite Hn.
  destruct (String.eqb (Name b) name || String.eqb (Name b) "*");
    [reflexivity|now apply IH].
Qed.

(** X12. A lookup by name on a projected document looks at the names of
    the result fields and at the raw document only: two masks over the same
    raw document whose result fields have the same names answer every
    lookup alike, whatever the expressions of the fields and the table
    configurations are. The expression of a result field is never evaluated
    by a lookup. *)
Theorem mask_GetByField_names (m1 m2 : documentMask) (name : string) :
  r m1 = r m2 ->
  map (@Name _ _ _) (resultFields m1) = map (@Name _ _ _) (resultFields m2) ->
  mask_GetByField m1 name = mask_GetByField m2 name.
Proof.
  intros Hr Hn. unfold mask_GetByField. rewrite Hr.
  now apply GetByField_loop_names.
Qed.

(** X13. A projection that holds the wildcard exposes every field of the
    raw document to lookups, and the projection on the wildcard alone
    iterates as the raw document does: SELECT * is the identity on what a
    document shows. *)
Theorem Wildcard_shows_document (m : documentMask) :
  (In (Wildcard _ _ _) (resultFields m) ->
   forall name, mask_GetByField m name = GetByField (r m) name) /\
  (resultFields m = [Wildcard _ _ _] ->
   forall (S : Type) (fn : emit Value S) (st : S),
     mask_Iterate m fn st = Iterate (r m) fn st).
Proof.
  split.
  - intros Hin name. unfold mask_GetByField.
    destruct (GetByField_loop_spec (r m) name (resultFields m))
      as [[_ Heq]|[Hall _]]; [exact Heq|].
    destruct (Hall _ Hin) as [_ H]. now contradiction H.
  - intros Hr S fn st. unfold query.mask_Iterate. rewrite Hr. simpl.
    unfold Wildcard_Iterate. cbn [Doc].
    destruct (Iterate (r m) fn st) as [st' [e|]]; reflexivity.
Qed.

End Projection.

Lemma mask_GetByField_names_witness :
  let raw := rawDocument [("age"%string, VInt 3)] None in
  let m1 := mkMask None raw [ResultFieldExpr (literal (VInt 1)) "age"] in
  let m2 := mkMask (Some (mkTableConfig [])) raw
                   [ResultFieldExpr missing_field "age"] in
  r m1 = r m2 /\
  map (@Name _ _ _) (resultFields m1) = map (@Name _ _ _) (resultFields m2) /\
  mask_GetByField m1 "age" = mask_GetByField m2 "age" /\
  mask_GetByField m2 "age" = Ok (VInt 3).
Proof.
  intros raw m1 m2.
  split; [reflexivity|]. split; [reflexivity|].
  split; [|reflexivity].
  apply (@mask_GetByField_names SValue unit unit m1 m2 "age"%string);
    reflexivity.
Defined.

Lemma Wildcard_shows_document_witness :
  let m : documentMask SValue unit unit :=
    mkMask (Some (mkTableConfig [])) (person 3 x03)
           [KeyFunc _ _ _; Wildcard _ _ _] in
  In (Wildcard _ _ _) (resultFields m) /\
  mask_GetByField m "age" = Ok (VInt 3).
Proof.
  intros m.
  assert (Hin : In (Wildcard _ _ _) (resultFields m)) by (right; now left).
  split; [exact Hin|].
  rewrite (proj1 (@Wildcard_shows_document SValue SType TInt sDecodeValue
                    sPath_GetValue sPath_String unit unit m) Hin).
  reflexivity.
Defined.

End projection_more.

(* ================================================================= *)
(** ** Further properties of exec *)

Module select_more.

Import query samples select_facts.

Section Exec.

Variable Value : Type.
Variable ValueType : Type.
Variable Type_of : Value -> ValueType.
Variable IsNumber : ValueType -> bool.
Variable IntValue : ValueType.
Variable Int64Value : ValueType.
Variable ConvertTo : Value -> ValueType -> result Value.
Variable ConvertToInt : Value -> result Z.
Variable TypeQ : ValueType -> string.
Variable DecodeValue : ValueType -> bytes -> result Value.
Variable Path_GetValue : ValuePath -> option (Document Value) -> result Value.
Variable Path_String : ValuePath -> string.
Variable Transaction : Type.
Variable NamedValue : Type.
Variable FieldSelector : Type.
Variable Token : Type.
Variable ASC DESC : Token.
Variable Token_eq_dec : forall a b : Token, {a = b} + {a <> b}.

Local Abbreviation SelectStmt :=
  (SelectStmt Value Transaction NamedValue FieldSelector Token).
Local Abbreviation queryOptimizer :=
  (queryOptimizer Value Transaction NamedValue FieldSelector Token).

Variable newQueryOptimizer : Transaction -> string -> result queryOptimizer.
Variable optimizeQuery : queryOptimizer -> result (Stream Value).

Local Abbreviation evalCount :=
  (@evalCount Value ValueType Type_of IsNumber IntValue ConvertTo ConvertToInt
              TypeQ Transaction NamedValue).
Local Abbreviation maskDocument :=
  (@maskDocument Value ValueType Int64Value DecodeValue Path_GetValue
                 Path_String Transaction NamedValue).
Local Abbreviation exec :=
  (@exec Value ValueType Type_of IsNumber IntValue Int64Value ConvertTo
         ConvertToInt TypeQ DecodeValue Path_GetValue Path_String
         Transaction NamedValue FieldSelector Token ASC DESC Token_eq_dec
         newQueryOptimizer optimizeQuery).
Local Abbreviation stack_of tx args :=
  (mkEvalStack (Some tx) args (None : option (Document Value))
               (None : option TableConfig)).
Local Abbreviation configured qo0 stmt args limit offset :=
  (mkOptimizer (qo_tx qo0) (qo_tableName qo0) (qo_cfg qo0) (WhereExpr stmt)
     args (OrderBy stmt)
     (if Token_eq_dec (OrderByDirection stmt) DESC then DESC else ASC)
     limit offset).

(** X14. [exec] returns the first error it meets, unchanged, and goes no
    further: a statement without table name fails with "missing table
    selector" before any expression is evaluated; an error of the OFFSET
    clause, then of the LIMIT clause, is returned before the optimizer is
    called; an error of [newQueryOptimizer] is returned before
    [optimizeQuery] is called; an error of [optimizeQuery] is returned and
    no stream is built. *)
Theorem exec_returns_first_error
  (stmt : SelectStmt) (tx : Transaction) (args : list NamedValue) :
  (TableName stmt = EmptyString ->
   exec stmt tx args = ([], Fail (ErrorString "missing table selector"))) /\
  (TableName stmt <> EmptyString ->
   (forall e,
      evalCount "offset" (OffsetExpr stmt) (stack_of tx args) = Fail e ->
      exec stmt tx args = ([], Fail e)) /\
   (forall offset e,
      evalCount "offset" (OffsetExpr stmt) (stack_of tx args) = Ok offset ->
      evalCount "limit" (LimitExpr stmt) (stack_of tx args) = Fail e ->
      exec stmt tx args = ([], Fail e)) /\
   (forall offset limit e,
      evalCount "offset" (OffsetExpr stmt) (stack_of tx args) = Ok offset ->
      evalCount "limit" (LimitExpr stmt) (stack_of tx args) = Ok limit ->
      newQueryOptimizer tx (TableName stmt) = Fail e ->
      exec stmt tx args
      = ([call_newQueryOptimizer _ _ _ _ _ (TableName stmt)], Fail e)) /\
   (forall offset limit qo0 e,
      evalCount "offset" (OffsetExpr stmt) (stack_of tx args) = Ok offset ->
      evalCount "limit" (LimitExpr stmt) (stack_of tx args) = Ok limit ->
      newQueryOptimizer tx (TableName stmt) = Ok qo0 ->
      optimizeQuery (configured qo0 stmt args limit offset) = Fail e ->
      exec stmt tx args
      = ([call_newQueryOptimizer _ _ _ _ _ (TableName stmt);
          call_optimizeQuery (configured qo0 stmt args limit offset)],
         Fail e))).
Proof.
  split.
  - intros Hn. unfold query.exec. now rewrite Hn.
  - intros Hn. apply String.eqb_neq in Hn. unfold query.exec. rewrite Hn.
    repeat split.
    + intros e H. now rewrite H.
    + intros offset e H1 H2. now rewrite H1, H2.
    + intros offset limit e H1 H2 H3. now rewrite H1, H2, H3.
    + intros offset limit qo0 e H1 H2 H3 H4. now rewrite H1, H2, H3, H4.
Qed.

(** X15. [exec] returns a result only when every stage went through: the
    statement names its table, both clauses evaluate to integers, and both
    calls to the optimizer, made in this order and once each, succeed. The
    optimizer is handed the WHERE expression, the ORDER BY field and the
    arguments of the statement as they are, the counts as evaluated, and
    DESC as direction when the statement says DESC, ASC in every other
    case. *)
Theorem exec_result_requires_every_stage
  (stmt : SelectStmt) (tx : Transaction) (args : list NamedValue)
  (calls : list (call Value Transaction NamedValue FieldSelector Token))
  (res : Result Value) :
  exec stmt tx args = (calls, Ok res) ->
  TableName stmt <> EmptyString /\
  exists offset limit qo0 st qo,
    evalCount "offset" (OffsetExpr stmt) (stack_of tx args) = Ok offset /\
    evalCount "limit" (LimitExpr stmt) (stack_of tx args) = Ok limit /\
    newQueryOptimizer tx (TableName stmt) = Ok qo0 /\
    optimizeQuery qo = Ok st /\
    calls = [call_newQueryOptimizer _ _ _ _ _ (TableName stmt);
             call_optimizeQuery qo] /\
    qo_whereExpr qo = WhereExpr stmt /\
    qo_orderBy qo = OrderBy stmt /\
    qo_args qo = args /\
    qo_limit qo = limit /\ qo_offset qo = offset /\
    qo_cfg qo = qo_cfg qo0 /\
    ((OrderByDirection stmt = DESC /\ qo_orderByDirection qo = DESC) \/
     (OrderByDirection stmt <> DESC /\ qo_orderByDirection qo = ASC)).
Proof.
  unfold query.exec.
  destruct (String.eqb (TableName stmt) EmptyString) eqn:En; [discriminate|].
  apply String.eqb_neq in En.
  destruct (evalCount "offset" (OffsetExpr stmt) (stack_of tx args))
    as [offset|] eqn:Eo; [|discriminate].
  destruct (evalCount "limit" (LimitExpr stmt) (stack_of tx args))
    as [limit|] eqn:El; [|discriminate].
  destruct (newQueryOptimizer tx (TableName stmt)) as [qo0|] eqn:Eq;
    [|discriminate].
  destruct (optimizeQuery (configured qo0 stmt args limit offset))
    as [st|] eqn:Est; [|discriminate].
  intros H. inversion H; subst calls. split; [exact En|].
  exists offset, limit, qo0, st, (configured qo0 stmt args limit offset).
  cbn [qo_whereExpr qo_orderBy qo_args qo_limit qo_offset qo_cfg
       qo_orderByDirection].
  repeat split; auto.
  destruct (Token_eq_dec (OrderByDirection stmt) DESC); [left|right]; auto.
Qed.

(** X16. Whatever the counts are, the result of [exec] holds the
    projections of a run of consecutive documents of the optimizer's
    stream, in their order: those from position [offset] (from the start
    when the offset is zero or below), [limit] of them at most (all of them
    when the limit is negative). So the result never holds more documents
    than the stream, nor more than a non-negative limit. *)
Theorem exec_result_documents
  (stmt : SelectStmt) (tx : Transaction) (args : list NamedValue)
  (offset limit : Z) (qo0 : queryOptimizer) (st : Stream Value) :
  TableName stmt <> EmptyString ->
  evalCount "offset" (OffsetExpr stmt) (stack_of tx args) = Ok offset ->
  evalCount "limit" (LimitExpr stmt) (stack_of tx args) = Ok limit ->
  newQueryOptimizer tx (TableName stmt) = Ok qo0 ->
  optimizeQuery (configured qo0 stmt args limit offset) = Ok st ->
  exists res,
    snd (exec stmt tx args) = Ok res /\
    items (ResultStream res)
    = map (fun d => maskDocument (mkMask (qo_cfg qo0) d (Selectors stmt)))
          (positions (items st) (Z.to_nat offset)
             (if (limit >=? 0)%Z then Z.to_nat limit
              else List.length (items st))) /\
    List.length (items (ResultStream res)) <= List.length (items st) /\
    ((0 <= limit)%Z ->
     List.length (items (ResultStream res)) <= Z.to_nat limit).
Proof.
  intros Hname Hoff Hlim Hnew Hopt.
  rewrite (@exec_success Value ValueType Type_of IsNumber IntValue Int64Value
             ConvertTo ConvertToInt TypeQ DecodeValue Path_GetValue Path_String
             Transaction NamedValue FieldSelector Token ASC DESC Token_eq_dec
             newQueryOptimizer optimizeQuery
             stmt tx args offset limit qo0 st Hname Hoff Hlim Hnew Hopt).
  eexists. split; [reflexivity|]. cbn [snd ResultStream].
  rewrite Map_total
    with (g := fun d => maskDocument (mkMask (qo_cfg qo0) d (Selectors stmt)))
    by reflexivity.
  cbn [items].
  assert (Hst : items (if (offset >? 0)%Z then Offset st offset else st)
                = skipn (Z.to_nat offset) (items st)).
  { destruct (offset >? 0)%Z eqn:E; [reflexivity|].
    rewrite Z.gtb_ltb in E. apply Z.ltb_ge in E.
    replace (Z.to_nat offset) with 0 by lia. reflexivity. }
  assert (Hitems :
            items (if (limit >=? 0)%Z
                   then Limit (if (offset >? 0)%Z then Offset st offset else st)
                              limit
                   else if (offset >? 0)%Z then Offset st offset else st)
            = positions (items st) (Z.to_nat offset)
                (if (limit >=? 0)%Z then Z.to_nat limit
                 else List.length (items st))).
  { unfold positions. destruct (limit >=? 0)%Z.
    - unfold Limit. rewrite Hst.
      destruct (Nat.leb (Z.to_nat limit)
                  (List.length (skipn (Z.to_nat offset) (items st)))) eqn:E;
        cbn [items]; [reflexivity|].
      apply Nat.leb_gt in E. rewrite Hst, firstn_all2; [reflexivity|lia].
    - rewrite Hst, firstn_all2; [reflexivity|].
      rewrite length_skipn. lia. }
  rewrite Hitems. split; [reflexivity|].
  rewrite length_map, positions_length. split.
  - lia.
  - intros Hl. assert (E : (limit >=? 0)%Z = true) by (apply Z.geb_le; lia).
    rewrite E. lia.
Qed.

End Exec.

(** LIMIT 9 on the table of five people. *)
Lemma exec_result_documents_witness :
  let stmt := select_people None (Some (literal (VInt 9))) in
  TableName stmt <> EmptyString /\
  exists res,
    snd (sExec stmt tt []) = Ok res /\
    List.length (items (ResultStream res)) = 5.
Proof.
  intros stmt.
  assert (Hname : TableName stmt <> EmptyString) by discriminate.
  split; [exact Hname|].
  destruct (@exec_result_documents SValue SType sType_of sIsNumber
              TInt TInt sConvertTo sConvertToInt sTypeQ sDecodeValue
              sPath_GetValue sPath_String unit unit string bool false true
              Bool.bool_dec sNewQueryOptimizer sOptimizeQuery
              stmt tt [] (-1)%Z 9%Z
              (mkOptimizer tt "people" (Some (mkTableConfig [])) None []
                           EmptyString false 0 0)
              (mkStream people None)
              Hname eq_refl eq_refl eq_refl eq_refl)
    as (res & Hres & Hitems & _).
  exists res. split; [exact Hres|]. rewrite Hitems. reflexivity.
Defined.

(** ORDER BY ... DESC on the table of five people. *)
Lemma exec_result_requires_every_stage_witness :
  let stmt := mkSelect "people" None EmptyString true None None
                       [Wildcard SValue unit unit] in
  exists calls res,
    sExec stmt tt [] = (calls, Ok res) /\
    exists qo, nth_error calls 1 = Some (call_optimizeQuery qo) /\
               qo_orderByDirection qo = true /\
               qo_limit qo = (-1)%Z.
Proof.
  intros stmt.
  destruct (sExec stmt tt []) as [calls [res|e]] eqn:E;
    [|vm_compute in E; discriminate E].
  exists calls, res. split; [reflexivity|].
  destruct (@exec_result_requires_every_stage SValue SType sType_of sIsNumber
              TInt TInt sConvertTo sConvertToInt sTypeQ sDecodeValue
              sPath_GetValue sPath_String unit unit string bool false true
              Bool.bool_dec sNewQueryOptimizer sOptimizeQuery
              stmt tt [] calls res E)
    as (_ & offset & limit & qo0 & st & qo & Ho & Hl & _ & _ & Hc & _ & _ & _
        & Hlim & _ & _ & Hdir).
  exists qo. rewrite Hc. split; [reflexivity|]. split.
  - destruct Hdir as [[_ H]|[H _]]; [exact H|]. now contradiction H.
  - rewrite Hlim. vm_compute in Hl. now inversion Hl.
Defined.

(** A statement without table name. *)
Lemma exec_returns_first_error_witness :
  let stmt := mkSelect EmptyString None EmptyString false
                       (Some (literal (VText "x"))) None
                       [Wildcard SValue unit unit] in
  TableName stmt = EmptyString /\
  sExec stmt tt [] = ([], Fail (ErrorString "missing table selector")).
Proof.
  intros stmt. split; [reflexivity|].
  apply (proj1 (@exec_returns_first_error SValue SType sType_of sIsNumber
                  TInt TInt sConvertTo sConvertToInt sTypeQ sDecodeValue
                  sPath_GetValue sPath_String unit unit string bool false true
                  Bool.bool_dec sNewQueryOptimizer sOptimizeQuery
                  stmt tt [])).
  reflexivity.
Defined.

End select_more.
